(** * LikelyDenseUnsignedIntegerSet: an adaptive set of unsigned integers

    Shallow embedding of [Source/WTF/wtf/LikelyDenseUnsignedIntegerSet.h].
    The container keeps its members either in a bit vector shifted by the
    smallest member, or in a hash set, and moves between the two from the
    insertion path.

    The class is a template over [IndexType]; the development instantiates it
    at [uint32_t].  Every C++ integer is a [Z] and every arithmetic operation
    of the source is followed by the reduction modulo [2^32] that the C++
    type performs. *)

From Stdlib Require Import ZArith Lia.
From stdpp Require Import base tactics list list_numbers gmap sets fin_sets sorting.

Local Open Scope Z_scope.

#[local] Set Warnings "-clear-no-such-hyp".

(** ** Machine integers *)

Definition IndexBits : Z := 32.
Definition sizeofIndexType : Z := 4.

(** [std::numeric_limits<IndexType>::max()] and
    [std::numeric_limits<unsigned>::max()]. *)
Definition IndexMax : Z := 2 ^ IndexBits - 1.
Definition UnsignedMax : Z := 2 ^ 32 - 1.

(** Result of an arithmetic operation in [IndexType], resp. [unsigned]. *)
Definition wrapIndex (z : Z) : Z := z mod 2 ^ IndexBits.
Definition wrapUnsigned (z : Z) : Z := z mod 2 ^ 32.

(** Modelled from the spec: the two reserved values of the hash-set traits
    ("empty" and "deleted", spec section 3, invariant 6).  The traits class
    [UnsignedWithZeroKeyHashTraits] is not part of the sources at hand; it
    reserves the two largest values of the type. *)
Definition emptyValue : Z := IndexMax.
Definition deletedValue : Z := IndexMax - 1.

(** ** The bit vector primitive *)

Module BitVector.

(** Modelled from the spec: the dense bitmap primitive ([wtf/BitVector.h] is
    not part of the sources at hand).  It supports get and set of a bit by
    position, dynamic resizing, and iteration over the positions of the set
    bits in ascending order.  The bits are a [Z] used as a bit mask;
    [numBits] is the current size.  A fresh bit vector has room for
    [maxInlineBits] bits without any resizing. *)
Record t := mk { bits : Z; numBits : Z }.

Definition maxInlineBits : Z := 63.

Definition empty : t := mk 0 maxInlineBits.

Definition quickGet (bv : t) (bit : Z) : bool := Z.testbit (bits bv) bit.

(** [get] answers false beyond the current size. *)
Definition get (bv : t) (bit : Z) : bool :=
  if numBits bv <=? bit then false else quickGet bv bit.

(** [quickSet] sets the bit and returns its previous value. *)
Definition quickSet (bv : t) (bit : Z) : bool * t :=
  (Z.testbit (bits bv) bit, mk (Z.setbit (bits bv) bit) (numBits bv)).

Definition ensureSize (bv : t) (n : Z) : t :=
  if numBits bv <? n then mk (bits bv) n else bv.

Definition resize (bv : t) (n : Z) : t :=
  let n' := Z.max maxInlineBits n in
  mk (Z.land (bits bv) (Z.ones n')) n'.

(** [set] grows the vector when needed, then sets the bit. *)
Definition set (bv : t) (bit : Z) : bool * t :=
  quickSet (ensureSize bv (bit + 1)) bit.

(** Iteration: the positions of the set bits, in ascending order. *)
Definition setBits (bv : t) : list Z :=
  filter (λ i, Is_true (Z.testbit (bits bv) i)) (seqZ 0 (numBits bv)).

End BitVector.

(** ** The hash set primitive *)

Module HashSet.

(** Modelled from the spec: the hash-based set primitive ([wtf/HashSet.h] is
    not part of the sources at hand).  It supports insertion with new-entry
    detection, membership test, size, reserving an initial capacity,
    reporting the current capacity, and iteration in an unspecified order.
    How the capacity follows the number of keys is left to a [Policy]. *)
Record Policy := mkPolicy {
  reserve : Z → Z;      (* capacity after reserveInitialCapacity(keyCount) *)
  grow : Z → Z → Z      (* capacity after an insertion: old capacity, new key count *)
}.

Record t := mk { keys : gset Z; capacity : Z }.

Definition empty : t := mk ∅ 0.

Definition contains (hs : t) (value : Z) : bool := bool_decide (value ∈ keys hs).

Definition keyCount (hs : t) : Z := Z.of_nat (size (keys hs)).

Definition add (P : Policy) (hs : t) (value : Z) : bool * t :=
  if contains hs value then (false, hs)
  else (true, mk ({[value]} ∪ keys hs) (grow P (capacity hs) (keyCount hs + 1))).

Definition reserveInitialCapacity (P : Policy) (hs : t) (n : Z) : t :=
  mk (keys hs) (reserve P n).

Definition toList (hs : t) : list Z := elements (keys hs).

(** A table with at least eight slots that doubles whenever more than half
    of the slots would be in use. *)
Definition doubling : Policy :=
  mkPolicy
    (λ n, Z.max 8 (2 ^ (Z.log2_up (2 * n))))
    (λ cap n, if cap <? 2 * n then Z.max 8 (2 * cap) else cap).

End HashSet.

(** ** The container *)

(** The anonymous union [U]: exactly one of the two representations is
    live. *)
Inductive U :=
  | U_bitVector (bitVector : BitVector.t)
  | U_hashSet (hashSet : HashSet.t).

Record LikelyDenseUnsignedIntegerSet := mkSet {
  m_inline : U;
  m_size : Z;   (* only updated in bit vector mode; UnsignedMax marks hash set mode *)
  m_min : Z;
  m_max : Z
}.

Record AddResult := mkAddResult { isNewEntry : bool }.

(** Reading a member of the union.  Reading the member that is not live has
    no defined meaning in C++; the accessors then answer with a fresh
    object. *)
Definition bitVector (s : LikelyDenseUnsignedIntegerSet) : BitVector.t :=
  match m_inline s with U_bitVector bv => bv | U_hashSet _ => BitVector.empty end.

Definition hashSet (s : LikelyDenseUnsignedIntegerSet) : HashSet.t :=
  match m_inline s with U_hashSet hs => hs | U_bitVector _ => HashSet.empty end.

(** The default constructor. *)
Definition emptySet : LikelyDenseUnsignedIntegerSet :=
  mkSet (U_bitVector BitVector.empty) 0 0 0.

Definition isBitVector (s : LikelyDenseUnsignedIntegerSet) : bool :=
  negb (m_size s =? UnsignedMax).

Definition isValidValue (value : Z) : bool :=
  negb (value =? emptyValue) && negb (value =? deletedValue).

(** A value of type [IndexType] that is not reserved. *)
Definition validValue (value : Z) : Prop :=
  0 ≤ value ≤ IndexMax ∧ isValidValue value = true.

Definition contains (s : LikelyDenseUnsignedIntegerSet) (value : Z) : bool :=
  if isBitVector s then
    if value <? m_min s then false
    else BitVector.get (bitVector s) (wrapIndex (value - m_min s))
  else HashSet.contains (hashSet s) value.

Definition size (s : LikelyDenseUnsignedIntegerSet) : Z :=
  if isBitVector s then m_size s else HashSet.keyCount (hashSet s).

(** Iteration from [begin()] to [end()]: the bit vector iterator adds the
    shift, the hash set iterator does not. *)
Definition toList (s : LikelyDenseUnsignedIntegerSet) : list Z :=
  if isBitVector s then
    (λ it, wrapIndex (it + m_min s)) <$> BitVector.setBits (bitVector s)
  else HashSet.toList (hashSet s).

Section WithPolicy.

Context (P : HashSet.Policy).

Definition transitionToHashSet (s : LikelyDenseUnsignedIntegerSet)
  : LikelyDenseUnsignedIntegerSet :=
  let newSet :=
    HashSet.reserveInitialCapacity P HashSet.empty (wrapUnsigned (m_size s + 1)) in
  let newSet :=
    fold_left
      (λ ns it, let oldIndex := wrapIndex it in
                snd (HashSet.add P ns (wrapIndex (oldIndex + m_min s))))
      (BitVector.setBits (bitVector s)) newSet in
  mkSet (U_hashSet newSet) UnsignedMax (m_min s) (m_max s).

Definition transitionToBitVector (s : LikelyDenseUnsignedIntegerSet)
  : LikelyDenseUnsignedIntegerSet :=
  let newBitVector :=
    BitVector.ensureSize BitVector.empty (wrapIndex (m_max s - m_min s + 1)) in
  let loop :=
    fold_left
      (λ acc oldValue,
         (snd (BitVector.quickSet (fst acc) (wrapIndex (oldValue - m_min s))),
          wrapUnsigned (snd acc + 1)))
      (HashSet.toList (hashSet s)) (newBitVector, 0) in
  mkSet (U_bitVector (fst loop)) (snd loop) (m_min s) (m_max s).

(** The two cost comparisons of [add], on the values of the local variables
    they read. *)
Definition bitVectorIsCheaper (capacity min max : Z) : bool :=
  let hashSetSize := wrapUnsigned (capacity * sizeofIndexType) in
  let wouldBeBitVectorSize := wrapUnsigned (wrapIndex (max - min) / 8) in
  wrapUnsigned (wouldBeBitVectorSize * 2) <? hashSetSize.

Definition hashSetIsCheaper (size newMin newMax : Z) : bool :=
  let bitVectorSize := wrapUnsigned (wrapIndex (newMax - newMin) / 8) in
  let hashSetEstimatedOccupancyOverhead := 3 in
  let wouldBeHashSetCapacity :=
    wrapUnsigned (Z.max 8 size * hashSetEstimatedOccupancyOverhead) in
  let wouldBeHashSetSize := wrapUnsigned (wouldBeHashSetCapacity * sizeofIndexType) in
  wrapUnsigned (wouldBeHashSetSize * 2) <? bitVectorSize.

Definition add (s : LikelyDenseUnsignedIntegerSet) (value : Z)
  : AddResult * LikelyDenseUnsignedIntegerSet :=
  if m_size s =? 0 then
    (mkAddResult true,
     mkSet (U_bitVector (snd (BitVector.quickSet (bitVector s) 0))) 1 value value)
  else if negb (isBitVector s) then
    let r := HashSet.add P (hashSet s) value in
    if negb (fst r) then
      (mkAddResult false, mkSet (U_hashSet (snd r)) (m_size s) (m_min s) (m_max s))
    else
      let s1 := mkSet (U_hashSet (snd r)) (m_size s)
                  (Z.min (m_min s) value) (Z.max (m_max s) value) in
      if bitVectorIsCheaper (HashSet.capacity (snd r)) (m_min s1) (m_max s1)
      then (mkAddResult true, transitionToBitVector s1)
      else (mkAddResult true, s1)
  else if (m_min s <=? value) && (value <=? m_max s) then
    let r := BitVector.quickSet (bitVector s) (wrapIndex (value - m_min s)) in
    let isNew := negb (fst r) in
    (mkAddResult isNew,
     mkSet (U_bitVector (snd r)) (wrapUnsigned (m_size s + Z.b2z isNew))
       (m_min s) (m_max s))
  else
    (* bit vector mode, value out of bounds *)
    let size1 := wrapUnsigned (m_size s + 1) in
    let newMin := Z.min (m_min s) value in
    let newMax := Z.max (m_max s) value in
    if hashSetIsCheaper size1 newMin newMax then
      let s2 := transitionToHashSet (mkSet (m_inline s) size1 (m_min s) (m_max s)) in
      let r := HashSet.add P (hashSet s2) value in
      (mkAddResult true, mkSet (U_hashSet (snd r)) (m_size s2) newMin newMax)
    else if m_min s <=? value then
      let r := BitVector.set (bitVector s) (wrapIndex (value - m_min s)) in
      (mkAddResult true, mkSet (U_bitVector (snd r)) size1 (m_min s) value)
    else
      let newBitVector :=
        BitVector.resize BitVector.empty (wrapIndex (m_max s - value + 1)) in
      let shiftReduction := wrapIndex (m_min s - value) in
      let newBitVector :=
        fold_left
          (λ nb it, let oldIndex := wrapIndex it in
                    snd (BitVector.quickSet nb (wrapIndex (oldIndex + shiftReduction))))
          (BitVector.setBits (bitVector s)) newBitVector in
      let newBitVector := snd (BitVector.quickSet newBitVector 0) in
      (mkAddResult true, mkSet (U_bitVector newBitVector) size1 value (m_max s)).

(** A run of insertions. *)
Definition addAll (values : list Z) (s : LikelyDenseUnsignedIntegerSet)
  : LikelyDenseUnsignedIntegerSet :=
  fold_left (λ acc value, snd (add acc value)) values s.

End WithPolicy.

(** ** Diagnostics and moving *)

Record Scan := mkScan { numElements : Z; scanMin : Z; scanMax : Z }.

(** [validate()]: the result is [true] when no [RELEASE_ASSERT] fires. *)
Definition validate (s : LikelyDenseUnsignedIntegerSet) : bool :=
  let start := mkScan 0 IndexMax 0 in
  if isBitVector s then
    let r :=
      fold_left
        (λ acc it,
           let shiftedIndex := wrapIndex it in
           let correctedIndex := wrapIndex (m_min s + shiftedIndex) in
           mkScan (wrapUnsigned (numElements acc + 1))
             (Z.min (scanMin acc) correctedIndex)
             (Z.max (scanMax acc) correctedIndex))
        (BitVector.setBits (bitVector s)) start in
    (m_size s =? numElements r)
    && (if m_size s =? 0 then true
        else (m_min s =? scanMin r) && (m_max s =? scanMax r))
  else
    let r :=
      fold_left
        (λ acc index,
           mkScan (numElements acc) (Z.min (scanMin acc) index)
             (Z.max (scanMax acc) index))
        (HashSet.toList (hashSet s)) start in
    if m_size s =? 0 then true
    else (m_min s =? scanMin r) && (m_max s =? scanMax r).

(** Modelled from the spec: moving a representation hands its contents to
    the destination and leaves an empty representation behind (spec section
    3, lifecycle; the move constructors of [BitVector] and [HashSet] are not
    part of the sources at hand).  The pair is (destination, source
    afterwards). *)
Definition moveBitVector (bv : BitVector.t) : BitVector.t * BitVector.t :=
  (bv, BitVector.empty).

Definition moveHashSet (hs : HashSet.t) : HashSet.t * HashSet.t :=
  (hs, HashSet.empty).

(** The move constructor: the three fields are copied from [other], which
    keeps them, and the live representation is moved.  The pair is (the new
    object, [other] afterwards). *)
Definition moveConstruct (other : LikelyDenseUnsignedIntegerSet)
  : LikelyDenseUnsignedIntegerSet * LikelyDenseUnsignedIntegerSet :=
  let this := mkSet (m_inline other) (m_size other) (m_min other) (m_max other) in
  if isBitVector this then
    let r := moveBitVector (bitVector other) in
    (mkSet (U_bitVector (fst r)) (m_size other) (m_min other) (m_max other),
     mkSet (U_bitVector (snd r)) (m_size other) (m_min other) (m_max other))
  else
    let r := moveHashSet (hashSet other) in
    (mkSet (U_hashSet (fst r)) (m_size other) (m_min other) (m_max other),
     mkSet (U_hashSet (snd r)) (m_size other) (m_min other) (m_max other)).

(** ** Abstraction, reachable states and the representation invariant *)

(** The members, as the set of values the iteration yields. *)
Definition members (s : LikelyDenseUnsignedIntegerSet) : gset Z :=
  list_to_set (toList s).

(** States the default constructor and [add] can produce. *)
Inductive reachable (P : HashSet.Policy) : LikelyDenseUnsignedIntegerSet → Prop :=
  | reachable_empty : reachable P emptySet
  | reachable_add s value :
      reachable P s → validValue value → reachable P (snd (add P s value)).

(** A bit vector that represents a non-empty set with bounds [mn] and [mx]:
    the bits lie in [0, mx - mn], the first and the last one are set, and the
    vector is large enough to hold them. *)
Record bitmapOK (bv : BitVector.t) (mn mx : Z) : Prop := mkBitmapOK {
  bm_min : validValue mn;
  bm_max : validValue mx;
  bm_le : mn ≤ mx;
  bm_room : mx - mn < BitVector.numBits bv;
  bm_within : ∀ i, Z.testbit (BitVector.bits bv) i = true → i ≤ mx - mn;
  bm_first : Z.testbit (BitVector.bits bv) 0 = true;
  bm_last : Z.testbit (BitVector.bits bv) (mx - mn) = true
}.

Record hashOK (hs : HashSet.t) (mn mx : Z) : Prop := mkHashOK {
  hk_keys : ∀ k, k ∈ HashSet.keys hs → validValue k ∧ mn ≤ k ≤ mx;
  hk_min : mn ∈ HashSet.keys hs;
  hk_max : mx ∈ HashSet.keys hs
}.

Inductive Inv : LikelyDenseUnsignedIntegerSet → Prop :=
  | Inv_empty : Inv emptySet
  | Inv_bitVector bv mn mx :
      bitmapOK bv mn mx →
      Inv (mkSet (U_bitVector bv) (Z.of_nat (length (BitVector.setBits bv))) mn mx)
  | Inv_hashSet hs mn mx :
      hashOK hs mn mx →
      Inv (mkSet (U_hashSet hs) UnsignedMax mn mx).

(** ** Iteration and memory accounting *)

(** Modelled from the spec: the iterators of the two primitives (their
    classes are not part of the sources at hand).  An iterator is a cursor
    into the sequence the primitive yields, kept as the part of that sequence
    still to come; the end iterator has nothing left, incrementing drops the
    first element, and dereferencing reads it. *)
Inductive Underlying :=
  | It_bitVector (rest : list Z)
  | It_hashSet (rest : list Z).

(** The nested class [iterator]: a variant over the two iterators, and the
    shift. *)
Record iterator := mkIterator { m_underlying : Underlying; m_shift : Z }.

Definition begin (s : LikelyDenseUnsignedIntegerSet) : iterator :=
  if isBitVector s
  then mkIterator (It_bitVector (BitVector.setBits (bitVector s))) (m_min s)
  else mkIterator (It_hashSet (HashSet.toList (hashSet s))) (m_min s).

Definition end_ (s : LikelyDenseUnsignedIntegerSet) : iterator :=
  if isBitVector s
  then mkIterator (It_bitVector []) (m_min s)
  else mkIterator (It_hashSet []) (m_min s).

(** [operator++]. *)
Definition increment (it : iterator) : iterator :=
  match m_underlying it with
  | It_bitVector rest => mkIterator (It_bitVector (tail rest)) (m_shift it)
  | It_hashSet rest => mkIterator (It_hashSet (tail rest)) (m_shift it)
  end.

(** [operator*]: only the bit vector alternative adds the shift. *)
Definition dereference (it : iterator) : Z :=
  match m_underlying it with
  | It_bitVector rest => wrapIndex (hd 0 rest + m_shift it)
  | It_hashSet rest => hd 0 rest
  end.

Definition underlying_eq (a b : Underlying) : bool :=
  match a, b with
  | It_bitVector r1, It_bitVector r2 => bool_decide (r1 = r2)
  | It_hashSet r1, It_hashSet r2 => bool_decide (r1 = r2)
  | _, _ => false
  end.

(** [operator==] and [operator!=]. *)
Definition iterator_eq (a b : iterator) : bool :=
  underlying_eq (m_underlying a) (m_underlying b) && (m_shift a =? m_shift b).

Definition iterator_ne (a b : iterator) : bool :=
  negb (underlying_eq (m_underlying a) (m_underlying b))
  || negb (m_shift a =? m_shift b).

(** The loop that walks from [it] to [last] and appends each dereferenced
    value, given a number of steps; [None] when the steps run out before
    [last] is reached. *)
Fixpoint collect (fuel : nat) (it last : iterator) : option (list Z) :=
  match fuel with
  | O => None
  | S fuel' =>
      if iterator_ne it last
      then cons (dereference it) <$> collect fuel' (increment it) last
      else Some []
  end.

(** [memoryUse()].  The size of the object and the out-of-line footprint of
    a bit vector depend on the memory layout and on [BitVector], which are
    not part of the sources at hand; both are parameters. *)
Definition memoryUse (sizeofSet : Z) (outOfLineMemoryUse : BitVector.t → Z)
    (s : LikelyDenseUnsignedIntegerSet) : Z :=
  let result := sizeofSet in
  if isBitVector s
  then wrapUnsigned (result + outOfLineMemoryUse (bitVector s))
  else wrapUnsigned (result + HashSet.capacity (hashSet s) * sizeofIndexType).

(** ** Names for the results of three paths of [add] *)

(** The bit vector built by the downward extension of [add]: the old bits
    moved up by [mn - v], and bit 0 for the new value. *)
Definition rebased (bv : BitVector.t) (mn mx v : Z) : BitVector.t :=
  snd (BitVector.quickSet
    (fold_left
       (λ nb it, snd (BitVector.quickSet nb
                        (wrapIndex (wrapIndex it + wrapIndex (mn - v)))))
       (BitVector.setBits bv)
       (BitVector.resize BitVector.empty (wrapIndex (mx - v + 1)))) 0).

(** The hash set built when [add] leaves bit vector mode: the old members,
    then the new value. *)
Definition hashed (P : HashSet.Policy) (bv : BitVector.t) (sz mn mx v : Z)
  : HashSet.t :=
  snd (HashSet.add P
         (hashSet (transitionToHashSet P (mkSet (U_bitVector bv) (sz + 1) mn mx))) v).

(** The bit vector built when [add] leaves hash set mode. *)
Definition rebuilt (hs : HashSet.t) (mn mx : Z) : BitVector.t :=
  fold_left (λ nb it, snd (BitVector.quickSet nb (wrapIndex (it - mn))))
    (HashSet.toList hs)
    (BitVector.ensureSize BitVector.empty (wrapIndex (mx - mn + 1))).

(** The state after inserting [0, 1, ..., n - 1] in this order into an
    empty set, for as long as no transition happens: a bit vector of [n]
    ones. *)
Definition denseState (n : Z) : LikelyDenseUnsignedIntegerSet :=
  mkSet (U_bitVector (BitVector.mk (Z.ones n) (Z.max BitVector.maxInlineBits n)))
    n 0 (n - 1).

(** ** Machine arithmetic *)

Lemma validValue_range v : validValue v ↔ 0 ≤ v ≤ 4294967293.
Proof.
  unfold validValue, isValidValue, emptyValue, deletedValue, IndexMax, IndexBits.
  change (2 ^ 32 - 1) with 4294967295. split.
  - intros [Hr Hv]. apply andb_true_iff in Hv as [H1 H2].
    apply negb_true_iff, Z.eqb_neq in H1, H2. lia.
  - intros Hr. split; [lia|]. apply andb_true_iff.
    split; apply negb_true_iff, Z.eqb_neq; lia.
Qed.

Lemma wrapIndex_small z : 0 ≤ z ≤ 4294967295 → wrapIndex z = z.
Proof.
  intros H. unfold wrapIndex, IndexBits. change (2 ^ 32) with 4294967296.
  apply Z.mod_small. lia.
Qed.

Lemma wrapUnsigned_small z : 0 ≤ z ≤ 4294967295 → wrapUnsigned z = z.
Proof.
  intros H. unfold wrapUnsigned. change (2 ^ 32) with 4294967296.
  apply Z.mod_small. lia.
Qed.

Lemma wrapIndex_range z : 0 ≤ wrapIndex z ≤ 4294967295.
Proof.
  unfold wrapIndex, IndexBits. change (2 ^ 32) with 4294967296.
  pose proof (Z.mod_pos_bound z 4294967296 ltac:(lia)). lia.
Qed.

Lemma UnsignedMax_eq : UnsignedMax = 4294967295.
Proof. reflexivity. Qed.

(** ** The bit vector primitive: iteration and updates *)

Lemma elem_of_setBits bv i :
  i ∈ BitVector.setBits bv ↔
  0 ≤ i < BitVector.numBits bv ∧ Z.testbit (BitVector.bits bv) i = true.
Proof.
  unfold BitVector.setBits. rewrite list_elem_of_filter, elem_of_seqZ.
  rewrite Is_true_true. split; intros [? ?]; split; (done || lia).
Qed.

Lemma NoDup_setBits bv : NoDup (BitVector.setBits bv).
Proof. apply NoDup_filter, NoDup_seqZ. Qed.

Lemma setBits_empty : BitVector.setBits BitVector.empty = [].
Proof. reflexivity. Qed.

Lemma testbit_quickSet bv i j :
  0 ≤ i → 0 ≤ j →
  Z.testbit (BitVector.bits (snd (BitVector.quickSet bv i))) j
  = bool_decide (i = j) || Z.testbit (BitVector.bits bv) j.
Proof.
  intros Hi Hj. simpl. rewrite Z.setbit_eqb by done.
  destruct (Z.eqb_spec i j); case_bool_decide; done.
Qed.

Lemma testbit_neg_false b i : Z.testbit b i = true → 0 ≤ i.
Proof.
  intros H. destruct (Z.le_gt_cases 0 i) as [|Hlt]; [done|].
  by rewrite Z.testbit_neg_r in H by lia.
Qed.

Lemma numBits_quickSet bv i :
  BitVector.numBits (snd (BitVector.quickSet bv i)) = BitVector.numBits bv.
Proof. done. Qed.

(** A loop of [quickSet] calls sets exactly the requested bits. *)
Lemma testbit_fold_quickSet (f : Z → Z) (l : list Z) bv j :
  (∀ i, 0 ≤ f i) → 0 ≤ j →
  Z.testbit (BitVector.bits
    (fold_left (λ nb it, snd (BitVector.quickSet nb (f it))) l bv)) j = true
  ↔ Z.testbit (BitVector.bits bv) j = true ∨ ∃ i, i ∈ l ∧ f i = j.
Proof.
  intros Hf Hj. revert bv. induction l as [|a l IH]; intros bv; cbn [fold_left].
  - split; [auto|]. intros [H|(i & Hi & _)]; [done|]. by apply elem_of_nil in Hi.
  - rewrite IH. rewrite (testbit_quickSet bv (f a) j (Hf a) Hj), orb_true_iff, bool_decide_eq_true.
    split.
    + intros [[H|H]|(i & Hi & Hfi)]; [right; exists a; split; [left|done]|by left|].
      right. exists i. split; [by right|done].
    + intros [H|(i & Hi & Hfi)]; [left; by right|].
      apply elem_of_cons in Hi as [->|Hi]; [left; by left|].
      right. by exists i.
Qed.

Lemma numBits_fold_quickSet (f : Z → Z) (l : list Z) bv :
  BitVector.numBits (fold_left (λ nb it, snd (BitVector.quickSet nb (f it))) l bv)
  = BitVector.numBits bv.
Proof. revert bv. induction l as [|a l IH]; intros bv; simpl; [done|]. by rewrite IH. Qed.

(** ** Counting *)

(** A set of integers inside an interval has at most as many elements as the
    interval. *)
Lemma size_within (X : gset Z) (a b : Z) :
  a ≤ b + 1 → (∀ x, x ∈ X → a ≤ x ≤ b) → Z.of_nat (base.size X) ≤ b - a + 1.
Proof.
  intros Hab HX.
  assert (Hsub : X ⊆ list_to_set (seqZ a (b - a + 1))).
  { intros x Hx. apply elem_of_list_to_set, elem_of_seqZ. specialize (HX x Hx). lia. }
  apply subseteq_size in Hsub.
  rewrite size_list_to_set in Hsub by apply NoDup_seqZ.
  rewrite length_seqZ in Hsub. lia.
Qed.

Lemma length_NoDup_set (l : list Z) :
  NoDup l → length l = base.size (list_to_set l : gset Z).
Proof. intros H. by rewrite size_list_to_set. Qed.

Lemma size_insert_new (X : gset Z) (x : Z) :
  x ∉ X → base.size ({[x]} ∪ X) = S (base.size X).
Proof.
  intros H. rewrite size_union; [by rewrite size_singleton|].
  intros y Hy ?. apply elem_of_singleton in Hy. by subst.
Qed.

Lemma size_insert_old (X : gset Z) (x : Z) :
  x ∈ X → base.size ({[x]} ∪ X) = base.size X.
Proof. intros H. f_equal. set_solver. Qed.

(** ** The hash set primitive: insertion *)

Lemma keys_add P hs v :
  HashSet.keys (snd (HashSet.add P hs v)) = {[v]} ∪ HashSet.keys hs.
Proof.
  unfold HashSet.add, HashSet.contains. case_bool_decide; simpl; [|done].
  set_solver.
Qed.

Lemma fst_add P hs v :
  fst (HashSet.add P hs v) = bool_decide (v ∉ HashSet.keys hs).
Proof.
  unfold HashSet.add, HashSet.contains.
  case_bool_decide; simpl; symmetry.
  - apply bool_decide_eq_false. tauto.
  - by apply bool_decide_eq_true.
Qed.

Lemma keys_fold_add P (f : Z → Z) (l : list Z) hs :
  HashSet.keys (fold_left (λ ns it, snd (HashSet.add P ns (f it))) l hs)
  = list_to_set (f <$> l) ∪ HashSet.keys hs.
Proof.
  revert hs. induction l as [|a l IH]; intros hs; cbn [fold_left].
  - set_solver.
  - rewrite IH, keys_add. set_solver.
Qed.

(** ** What a well-formed bit vector represents *)

Section Bitmap.

Context (bv : BitVector.t) (mn mx : Z) (OK : bitmapOK bv mn mx).

Lemma bitmap_bounds : 0 ≤ mn ∧ mn ≤ mx ∧ mx ≤ 4294967293.
Proof.
  destruct OK as [Hmn Hmx Hle _ _ _ _].
  apply validValue_range in Hmn, Hmx. lia.
Qed.

Lemma elem_of_setBits_ok i :
  i ∈ BitVector.setBits bv ↔ Z.testbit (BitVector.bits bv) i = true.
Proof.
  rewrite elem_of_setBits. split; [tauto|]. intros H. split; [|done].
  pose proof (testbit_neg_false _ _ H). pose proof (bm_within _ _ _ OK i H).
  pose proof (bm_room _ _ _ OK). lia.
Qed.

Lemma setBits_range i : i ∈ BitVector.setBits bv → 0 ≤ i ≤ mx - mn.
Proof.
  intros H. apply elem_of_setBits_ok in H.
  pose proof (testbit_neg_false _ _ H). pose proof (bm_within _ _ _ OK i H). lia.
Qed.

Lemma setBits_count :
  1 ≤ Z.of_nat (length (BitVector.setBits bv)) ≤ mx - mn + 1.
Proof.
  pose proof bitmap_bounds. split.
  - assert (H0 : 0 ∈ BitVector.setBits bv)
      by (apply elem_of_setBits_ok, (bm_first _ _ _ OK)).
    destruct (BitVector.setBits bv); [by apply elem_of_nil in H0|simpl; lia].
  - rewrite (length_NoDup_set _ (NoDup_setBits bv)).
    etrans; [apply (size_within _ 0 (mx - mn))|]; [lia| |lia].
    intros x Hx. apply elem_of_list_to_set in Hx. by apply setBits_range.
Qed.

Lemma isBitVector_bitmap :
  isBitVector (mkSet (U_bitVector bv) (Z.of_nat (length (BitVector.setBits bv))) mn mx)
  = true.
Proof.
  unfold isBitVector. simpl. rewrite UnsignedMax_eq.
  pose proof setBits_count. pose proof bitmap_bounds.
  apply negb_true_iff, Z.eqb_neq. lia.
Qed.

Lemma elem_of_toList_bitmap sz x :
  sz ≠ UnsignedMax →
  x ∈ toList (mkSet (U_bitVector bv) sz mn mx)
  ↔ mn ≤ x ∧ Z.testbit (BitVector.bits bv) (x - mn) = true.
Proof.
  intros Hsz. unfold toList, isBitVector. simpl.
  apply Z.eqb_neq in Hsz. rewrite Hsz. simpl.
  pose proof bitmap_bounds. rewrite list_elem_of_fmap. split.
  - intros (i & -> & Hi). pose proof (setBits_range i Hi).
    rewrite wrapIndex_small by lia. split; [lia|].
    apply elem_of_setBits_ok in Hi. by replace (i + mn - mn) with i by lia.
  - intros [Hle Hb]. exists (x - mn). apply elem_of_setBits_ok in Hb.
    pose proof (setBits_range _ Hb). split; [|done].
    rewrite wrapIndex_small by lia. lia.
Qed.

Lemma elem_of_members_bitmap sz x :
  sz ≠ UnsignedMax →
  x ∈ members (mkSet (U_bitVector bv) sz mn mx)
  ↔ mn ≤ x ∧ Z.testbit (BitVector.bits bv) (x - mn) = true.
Proof.
  intros Hsz. unfold members. rewrite elem_of_list_to_set.
  by apply elem_of_toList_bitmap.
Qed.

Lemma members_bitmap_range sz x :
  sz ≠ UnsignedMax → x ∈ members (mkSet (U_bitVector bv) sz mn mx) → mn ≤ x ≤ mx.
Proof.
  intros Hsz [Hle Hb]%elem_of_members_bitmap; [|done].
  pose proof (bm_within _ _ _ OK _ Hb). lia.
Qed.

Lemma NoDup_toList_bitmap sz :
  sz ≠ UnsignedMax → NoDup (toList (mkSet (U_bitVector bv) sz mn mx)).
Proof.
  intros Hsz. unfold toList, isBitVector. simpl.
  apply Z.eqb_neq in Hsz. rewrite Hsz. simpl.
  pose proof bitmap_bounds.
  apply NoDup_fmap_2_strong; [|apply NoDup_setBits].
  intros i j Hi Hj. pose proof (setBits_range i Hi). pose proof (setBits_range j Hj).
  rewrite !wrapIndex_small by lia. lia.
Qed.

Lemma size_members_bitmap sz :
  sz ≠ UnsignedMax →
  base.size (members (mkSet (U_bitVector bv) sz mn mx))
  = length (BitVector.setBits bv).
Proof.
  intros Hsz. unfold members.
  rewrite size_list_to_set by by apply NoDup_toList_bitmap.
  unfold toList, isBitVector. simpl.
  apply Z.eqb_neq in Hsz. rewrite Hsz. simpl. by rewrite length_fmap.
Qed.

Lemma contains_bitmap sz w :
  sz ≠ UnsignedMax → 0 ≤ w ≤ IndexMax →
  contains (mkSet (U_bitVector bv) sz mn mx) w
  = (mn <=? w) && Z.testbit (BitVector.bits bv) (w - mn).
Proof.
  intros Hsz Hw. unfold contains, isBitVector. simpl.
  apply Z.eqb_neq in Hsz. rewrite Hsz. simpl.
  pose proof bitmap_bounds. change IndexMax with 4294967295 in Hw.
  destruct (Z.ltb_spec w mn), (Z.leb_spec mn w); try lia; simpl; try done.
  rewrite wrapIndex_small by lia. unfold BitVector.get, BitVector.quickGet.
  cbn.
  destruct (Z.leb_spec (BitVector.numBits bv) (w - mn)); [|done].
  destruct (Z.testbit (BitVector.bits bv) (w - mn)) eqn:Hb; [exfalso|done].
  pose proof (bm_within _ _ _ OK _ Hb). pose proof (bm_room _ _ _ OK). lia.
Qed.

End Bitmap.


Lemma Inv_bitVector' bv sz mn mx :
  bitmapOK bv mn mx → sz = Z.of_nat (length (BitVector.setBits bv)) →
  Inv (mkSet (U_bitVector bv) sz mn mx).
Proof. intros OK ->. by constructor. Qed.

Lemma bitSet_quickSet bv i :
  0 ≤ i < BitVector.numBits bv →
  (list_to_set (BitVector.setBits (snd (BitVector.quickSet bv i))) : gset Z)
  = {[i]} ∪ list_to_set (BitVector.setBits bv).
Proof.
  intros Hi. apply set_eq. intros j.
  rewrite elem_of_union, elem_of_singleton, !elem_of_list_to_set, !elem_of_setBits.
  rewrite numBits_quickSet. split.
  - intros [Hj Hb]. rewrite testbit_quickSet in Hb by lia.
    apply orb_true_iff in Hb as [Hb|Hb]; [left; by apply bool_decide_eq_true in Hb|by right].
  - intros [->|[Hj Hb]]; (split; [lia|]); rewrite testbit_quickSet by lia.
    + rewrite bool_decide_eq_true_2; done.
    + rewrite Hb. apply orb_true_r.
Qed.

Lemma length_setBits_quickSet bv i :
  0 ≤ i < BitVector.numBits bv →
  Z.of_nat (length (BitVector.setBits (snd (BitVector.quickSet bv i))))
  = Z.of_nat (length (BitVector.setBits bv))
    + Z.b2z (negb (Z.testbit (BitVector.bits bv) i)).
Proof.
  intros Hi. rewrite !(length_NoDup_set _ (NoDup_setBits _)), bitSet_quickSet by done.
  destruct (Z.testbit (BitVector.bits bv) i) eqn:Hb; simpl.
  - rewrite size_insert_old; [lia|]. apply elem_of_list_to_set, elem_of_setBits. done.
  - rewrite size_insert_new; [lia|]. rewrite elem_of_list_to_set, elem_of_setBits.
    intros [_ ?]. congruence.
Qed.

Lemma testbit_one i : Z.testbit 1 i = true → i = 0.
Proof.
  intros H. pose proof (testbit_neg_false _ _ H).
  change 1 with (2 ^ 0) in H. rewrite Z.pow2_bits_eqb in H by lia.
  apply Z.eqb_eq in H. lia.
Qed.

Lemma members_emptySet : members emptySet = ∅.
Proof. reflexivity. Qed.

Section Add.
Context (P : HashSet.Policy).

Lemma add_emptySet v :
  add P emptySet v
  = (mkAddResult true, mkSet (U_bitVector (BitVector.mk 1 63)) 1 v v).
Proof. reflexivity. Qed.

Lemma bitmapOK_singleton v : validValue v → bitmapOK (BitVector.mk 1 63) v v.
Proof.
  intros Hv. split; simpl; try done; try lia.
  - intros i Hi%testbit_one. lia.
  - by rewrite Z.sub_diag.
Qed.

Lemma Inv_singleton v :
  validValue v → Inv (mkSet (U_bitVector (BitVector.mk 1 63)) 1 v v).
Proof. intros Hv. apply Inv_bitVector'; [by apply bitmapOK_singleton|reflexivity]. Qed.

Lemma members_singleton v :
  validValue v → members (mkSet (U_bitVector (BitVector.mk 1 63)) 1 v v) = {[v]}.
Proof.
  intros Hv. apply set_eq. intros x.
  rewrite (elem_of_members_bitmap _ _ _ (bitmapOK_singleton v Hv)) by done.
  rewrite elem_of_singleton. simpl. split.
  - intros [Hle Hb%testbit_one]. lia.
  - intros ->. rewrite Z.sub_diag. done.
Qed.
End Add.

(** ** Insertion in bit vector mode *)

Section AddBitVector.

Context (P : HashSet.Policy).
Context (bv : BitVector.t) (sz mn mx : Z).
Context (OK : bitmapOK bv mn mx).
Context (Hsz : sz = Z.of_nat (length (BitVector.setBits bv))).

Let s := mkSet (U_bitVector bv) sz mn mx.

Lemma bitmap_size_range : 1 ≤ sz ≤ mx - mn + 1 ∧ sz ≤ 4294967294.
Proof.
  pose proof (setBits_count _ _ _ OK). pose proof (bitmap_bounds _ _ _ OK). lia.
Qed.

Lemma bitmap_size_ne : sz ≠ UnsignedMax.
Proof. rewrite UnsignedMax_eq. pose proof bitmap_size_range. lia. Qed.

Lemma isBitVector_bitmap_sz : isBitVector s = true.
Proof. unfold isBitVector. apply negb_true_iff, Z.eqb_neq, bitmap_size_ne. Qed.

(** The first two tests of [add] fail: the set is not empty and it is in
    bit vector mode. *)
Lemma add_bitmap_dispatch v :
  add P s v =
  if (mn <=? v) && (v <=? mx) then
    let r := BitVector.quickSet bv (wrapIndex (v - mn)) in
    (mkAddResult (negb (fst r)),
     mkSet (U_bitVector (snd r)) (wrapUnsigned (sz + Z.b2z (negb (fst r)))) mn mx)
  else
    let size1 := wrapUnsigned (sz + 1) in
    if hashSetIsCheaper size1 (Z.min mn v) (Z.max mx v) then
      let s2 := transitionToHashSet P (mkSet (U_bitVector bv) size1 mn mx) in
      (mkAddResult true,
       mkSet (U_hashSet (snd (HashSet.add P (hashSet s2) v))) (m_size s2)
         (Z.min mn v) (Z.max mx v))
    else if mn <=? v then
      (mkAddResult true,
       mkSet (U_bitVector (snd (BitVector.set bv (wrapIndex (v - mn))))) size1 mn v)
    else
      let newBitVector :=
        fold_left
          (λ nb it, snd (BitVector.quickSet nb
                           (wrapIndex (wrapIndex it + wrapIndex (mn - v)))))
          (BitVector.setBits bv)
          (BitVector.resize BitVector.empty (wrapIndex (mx - v + 1))) in
      (mkAddResult true,
       mkSet (U_bitVector (snd (BitVector.quickSet newBitVector 0))) size1 v mx).
Proof.
  pose proof bitmap_size_range as Hr. pose proof bitmap_size_ne as Hne.
  unfold add, s, isBitVector. cbn [m_size m_min m_max m_inline bitVector].
  rewrite (proj2 (Z.eqb_neq sz 0)) by lia.
  rewrite (proj2 (Z.eqb_neq sz UnsignedMax)) by done.
  reflexivity.
Qed.

(** Case C: the value lies within the bounds. *)
Lemma add_inrange v :
  mn ≤ v ≤ mx →
  add P s v =
  (mkAddResult (negb (Z.testbit (BitVector.bits bv) (v - mn))),
   mkSet (U_bitVector (BitVector.mk (Z.setbit (BitVector.bits bv) (v - mn))
                         (BitVector.numBits bv)))
     (sz + Z.b2z (negb (Z.testbit (BitVector.bits bv) (v - mn)))) mn mx).
Proof.
  intros Hv. rewrite add_bitmap_dispatch.
  pose proof bitmap_size_range. pose proof (bitmap_bounds _ _ _ OK).
  rewrite (proj2 (Z.leb_le mn v)), (proj2 (Z.leb_le v mx)) by lia.
  cbn [andb BitVector.quickSet fst snd]. rewrite wrapIndex_small by lia.
  rewrite wrapUnsigned_small; [done|].
  destruct (Z.testbit _ _); simpl; lia.
Qed.

Lemma bitmapOK_inrange v :
  mn ≤ v ≤ mx →
  bitmapOK (BitVector.mk (Z.setbit (BitVector.bits bv) (v - mn))
              (BitVector.numBits bv)) mn mx.
Proof.
  intros Hv. destruct OK as [H1 H2 H3 H4 H5 H6 H7]. split; cbn [BitVector.bits BitVector.numBits]; try done.
  - intros i Hi. pose proof (testbit_neg_false _ _ Hi).
    rewrite Z.setbit_eqb in Hi by lia.
    apply orb_true_iff in Hi as [Hi%Z.eqb_eq|Hi]; [lia|by apply H5].
  - rewrite Z.setbit_eqb by lia. rewrite H6. apply orb_true_r.
  - rewrite Z.setbit_eqb by lia. rewrite H7. apply orb_true_r.
Qed.

Lemma size_inrange v :
  mn ≤ v ≤ mx →
  sz + Z.b2z (negb (Z.testbit (BitVector.bits bv) (v - mn)))
  = Z.of_nat (length (BitVector.setBits
      (BitVector.mk (Z.setbit (BitVector.bits bv) (v - mn)) (BitVector.numBits bv)))).
Proof.
  intros Hv. pose proof (bm_room _ _ _ OK).
  pose proof (length_setBits_quickSet bv (v - mn) ltac:(lia)) as Hl.
  cbn [BitVector.quickSet snd] in Hl. rewrite Hl, Hsz. done.
Qed.

Lemma Inv_inrange v :
  mn ≤ v ≤ mx → Inv (snd (add P s v)).
Proof.
  intros Hv. rewrite add_inrange by done. cbn [snd].
  apply Inv_bitVector'; [by apply bitmapOK_inrange|by apply size_inrange].
Qed.

Lemma members_inrange v :
  mn ≤ v ≤ mx → members (snd (add P s v)) = {[v]} ∪ members s.
Proof.
  intros Hv. rewrite add_inrange by done. cbn [snd].
  pose proof bitmap_size_range. pose proof bitmap_size_ne.
  apply set_eq. intros x. rewrite elem_of_union, elem_of_singleton. unfold s.
  rewrite (elem_of_members_bitmap _ _ _ (bitmapOK_inrange v Hv)).
  2:{ rewrite size_inrange, UnsignedMax_eq by done.
      pose proof (setBits_count _ _ _ (bitmapOK_inrange v Hv)).
      pose proof (bitmap_bounds _ _ _ OK). lia. }
  rewrite (elem_of_members_bitmap _ _ _ OK) by done. simpl.
  split.
  - intros [Hle Hb]. rewrite Z.setbit_eqb in Hb by lia.
    apply orb_true_iff in Hb as [Hb%Z.eqb_eq|Hb]; [left; lia|by right].
  - intros [->|[Hle Hb]]; (split; [lia|]); rewrite Z.setbit_eqb by lia.
    + by rewrite Z.eqb_refl.
    + rewrite Hb. apply orb_true_r.
Qed.


(** Case D: the value lies outside the bounds. *)
Lemma size1_out v :
  validValue v → ¬ (mn ≤ v ≤ mx) →
  wrapUnsigned (sz + 1) = sz + 1 ∧ sz + 1 ≤ Z.max mx v - Z.min mn v + 1
  ∧ sz + 1 ≠ UnsignedMax.
Proof.
  intros Hv%validValue_range Hout. rewrite UnsignedMax_eq.
  pose proof bitmap_size_range. pose proof (bitmap_bounds _ _ _ OK).
  rewrite wrapUnsigned_small by lia. lia.
Qed.

Lemma members_s_spec x :
  x ∈ members s ↔ mn ≤ x ∧ Z.testbit (BitVector.bits bv) (x - mn) = true.
Proof. apply (elem_of_members_bitmap _ _ _ OK), bitmap_size_ne. Qed.

Lemma members_s_range x : x ∈ members s → mn ≤ x ≤ mx.
Proof. apply (members_bitmap_range _ _ _ OK), bitmap_size_ne. Qed.

Lemma size_members_s : Z.of_nat (base.size (members s)) = sz.
Proof.
  unfold s. rewrite (size_members_bitmap _ _ _ OK) by apply bitmap_size_ne.
  by rewrite Hsz.
Qed.

Lemma min_in_members : mn ∈ members s.
Proof.
  apply members_s_spec. split; [lia|]. rewrite Z.sub_diag. apply (bm_first _ _ _ OK).
Qed.

Lemma max_in_members : mx ∈ members s.
Proof.
  pose proof (bitmap_bounds _ _ _ OK).
  apply members_s_spec. split; [lia|]. apply (bm_last _ _ _ OK).
Qed.

(** A bit vector state whose members are known is well-formed as soon as
    its counter is the number of members. *)
Lemma Inv_of_members bv' sz' mn' mx' (X : gset Z) :
  bitmapOK bv' mn' mx' → sz' ≠ UnsignedMax →
  members (mkSet (U_bitVector bv') sz' mn' mx') = X →
  sz' = Z.of_nat (base.size X) →
  Inv (mkSet (U_bitVector bv') sz' mn' mx').
Proof.
  intros OK' Hne HX Hsz'. apply Inv_bitVector'; [done|].
  by rewrite Hsz', <- HX, (size_members_bitmap _ _ _ OK').
Qed.

Lemma size_add_new v :
  v ∉ members s → Z.of_nat (base.size ({[v]} ∪ members s)) = sz + 1.
Proof. intros Hv. rewrite size_insert_new by done. rewrite <- size_members_s. lia. Qed.

Lemma out_not_member v : ¬ (mn ≤ v ≤ mx) → v ∉ members s.
Proof. intros Hout Hin%members_s_range. done. Qed.

(** Upward extension. *)
Lemma add_up v :
  validValue v → mx < v → hashSetIsCheaper (sz + 1) mn v = false →
  add P s v =
  (mkAddResult true,
   mkSet (U_bitVector (snd (BitVector.set bv (v - mn)))) (sz + 1) mn v).
Proof.
  intros Hv Hgt Hc. rewrite add_bitmap_dispatch.
  pose proof (bitmap_bounds _ _ _ OK).
  destruct (size1_out v Hv ltac:(lia)) as (Hw & _ & _).
  apply validValue_range in Hv.
  rewrite (proj2 (Z.leb_le mn v)), (proj2 (Z.leb_gt v mx)) by lia.
  cbn [andb]. cbv zeta. rewrite Hw.
  rewrite (Z.min_l mn v), (Z.max_r mx v) by lia. rewrite Hc.
  by rewrite wrapIndex_small by lia.
Qed.

Lemma bits_set i :
  BitVector.bits (snd (BitVector.set bv i)) = Z.setbit (BitVector.bits bv) i.
Proof. unfold BitVector.set, BitVector.ensureSize. by destruct (_ <? _). Qed.

Lemma numBits_set i :
  i < BitVector.numBits (snd (BitVector.set bv i)).
Proof.
  unfold BitVector.set, BitVector.ensureSize.
  destruct (Z.ltb_spec (BitVector.numBits bv) (i + 1)); simpl; lia.
Qed.

Lemma bitmapOK_up v :
  validValue v → mx < v → bitmapOK (snd (BitVector.set bv (v - mn))) mn v.
Proof.
  intros Hv Hgt. destruct OK as [H1 H2 H3 H4 H5 H6 H7].
  split; rewrite ?bits_set; try done; try lia.
  - apply numBits_set.
  - intros i Hi. pose proof (testbit_neg_false _ _ Hi).
    rewrite Z.setbit_eqb in Hi by lia.
    apply orb_true_iff in Hi as [Hi%Z.eqb_eq|Hi]; [lia|]. apply H5 in Hi. lia.
  - rewrite Z.setbit_eqb by lia. rewrite H6. apply orb_true_r.
  - rewrite Z.setbit_eqb by lia. by rewrite Z.eqb_refl.
Qed.

Lemma members_up v sz' :
  validValue v → mx < v → sz' ≠ UnsignedMax →
  members (mkSet (U_bitVector (snd (BitVector.set bv (v - mn)))) sz' mn v)
  = {[v]} ∪ members s.
Proof.
  intros Hv Hgt Hne. apply set_eq. intros x.
  rewrite elem_of_union, elem_of_singleton, members_s_spec.
  rewrite (elem_of_members_bitmap _ _ _ (bitmapOK_up v Hv Hgt)) by done.
  rewrite bits_set. pose proof (bitmap_bounds _ _ _ OK). split.
  - intros [Hle Hb]. rewrite Z.setbit_eqb in Hb by lia.
    apply orb_true_iff in Hb as [Hb%Z.eqb_eq|Hb]; [left; lia|by right].
  - intros [->|[Hle Hb]]; (split; [lia|]); rewrite Z.setbit_eqb by lia.
    + by rewrite Z.eqb_refl.
    + rewrite Hb. apply orb_true_r.
Qed.


(** Downward extension: the bit vector is rebuilt around the new minimum. *)
Lemma add_down v :
  validValue v → v < mn → hashSetIsCheaper (sz + 1) v mx = false →
  add P s v = (mkAddResult true, mkSet (U_bitVector (rebased bv mn mx v)) (sz + 1) v mx).
Proof.
  intros Hv Hlt Hc. rewrite add_bitmap_dispatch.
  pose proof (bitmap_bounds _ _ _ OK).
  destruct (size1_out v Hv ltac:(lia)) as (Hw & _ & _).
  rewrite (proj2 (Z.leb_gt mn v)) by lia.
  cbn [andb]. cbv zeta. rewrite Hw.
  rewrite (Z.min_r mn v), (Z.max_l mx v) by lia. by rewrite Hc.
Qed.

Lemma numBits_rebased v :
  validValue v → v < mn → mx - v < BitVector.numBits (rebased bv mn mx v).
Proof.
  intros Hv%validValue_range Hlt. pose proof (bitmap_bounds _ _ _ OK).
  unfold rebased. rewrite numBits_quickSet, numBits_fold_quickSet.
  unfold BitVector.resize. cbn [BitVector.numBits].
  rewrite wrapIndex_small by lia. lia.
Qed.

Lemma testbit_rebased v j :
  validValue v → v < mn →
  Z.testbit (BitVector.bits (rebased bv mn mx v)) j = true
  ↔ j = 0 ∨ (mn - v ≤ j ∧ Z.testbit (BitVector.bits bv) (j - (mn - v)) = true).
Proof.
  intros Hv%validValue_range Hlt. pose proof (bitmap_bounds _ _ _ OK).
  destruct (Z.le_gt_cases 0 j) as [Hj|Hj].
  2:{ rewrite Z.testbit_neg_r by lia. split; [done|]. intros [?|[? ?]]; lia. }
  unfold rebased. rewrite testbit_quickSet, orb_true_iff, bool_decide_eq_true by lia.
  rewrite testbit_fold_quickSet by (try done; intros; apply wrapIndex_range).
  unfold BitVector.resize, BitVector.empty. cbn [BitVector.bits].
  rewrite Z.land_0_l, Z.bits_0. split.
  - intros [H0|[Hf|(i & Hi & Hij)]]; [by left|done|right].
    pose proof (setBits_range _ _ _ OK i Hi).
    rewrite !wrapIndex_small in Hij by (rewrite ?wrapIndex_small; lia).
    apply (elem_of_setBits_ok _ _ _ OK) in Hi.
    split; [lia|]. by replace (j - (mn - v)) with i by lia.
  - intros [->|[Hle Hb]]; [by left|right; right].
    exists (j - (mn - v)). apply (elem_of_setBits_ok _ _ _ OK) in Hb.
    pose proof (setBits_range _ _ _ OK _ Hb). split; [done|].
    rewrite !wrapIndex_small by (rewrite ?wrapIndex_small; lia). lia.
Qed.

Lemma bitmapOK_down v :
  validValue v → v < mn → bitmapOK (rebased bv mn mx v) v mx.
Proof.
  intros Hv Hlt. pose proof (bitmap_bounds _ _ _ OK).
  destruct OK as [H1 H2 H3 H4 H5 H6 H7]. split; try done; try lia.
  - by apply numBits_rebased.
  - intros i [->|[Hle Hb]]%testbit_rebased; try done; [lia|].
    apply H5 in Hb. lia.
  - apply testbit_rebased; auto.
  - apply testbit_rebased; try done. right. split; [lia|].
    by replace (mx - v - (mn - v)) with (mx - mn) by lia.
Qed.

Lemma members_down v sz' :
  validValue v → v < mn → sz' ≠ UnsignedMax →
  members (mkSet (U_bitVector (rebased bv mn mx v)) sz' v mx) = {[v]} ∪ members s.
Proof.
  intros Hv Hlt Hne. apply set_eq. intros x.
  rewrite elem_of_union, elem_of_singleton, members_s_spec.
  rewrite (elem_of_members_bitmap _ _ _ (bitmapOK_down v Hv Hlt)) by done.
  rewrite testbit_rebased by done. split.
  - intros [Hle [H0|[Hge Hb]]]; [left; lia|right].
    split; [lia|]. by replace (x - mn) with (x - v - (mn - v)) by lia.
  - intros [->|[Hle Hb]]; (split; [lia|]); [left; lia|right].
    split; [lia|]. by replace (x - v - (mn - v)) with (x - mn) by lia.
Qed.

(** Transition to the hash set. *)
Lemma keys_transitionToHashSet sz' :
  HashSet.keys (hashSet (transitionToHashSet P (mkSet (U_bitVector bv) sz' mn mx)))
  = members s.
Proof.
  unfold transitionToHashSet. cbn [hashSet m_inline bitVector m_size m_min].
  rewrite (keys_fold_add P (λ it, wrapIndex (wrapIndex it + mn))).
  unfold HashSet.reserveInitialCapacity, HashSet.empty. cbn [HashSet.keys].
  rewrite (right_id_L ∅ (∪)). unfold members, toList.
  rewrite isBitVector_bitmap_sz. unfold s. cbn [bitVector m_inline m_min].
  f_equal. apply list_fmap_ext. intros _ i Hi%list_elem_of_lookup_2.
  pose proof (setBits_range _ _ _ OK i Hi). pose proof (bitmap_bounds _ _ _ OK).
  by rewrite (wrapIndex_small i) by lia.
Qed.


Lemma add_toHash v :
  validValue v → ¬ (mn ≤ v ≤ mx) →
  hashSetIsCheaper (sz + 1) (Z.min mn v) (Z.max mx v) = true →
  add P s v =
  (mkAddResult true, mkSet (U_hashSet (hashed P bv sz mn mx v)) UnsignedMax (Z.min mn v) (Z.max mx v)).
Proof.
  intros Hv Hout Hc. rewrite add_bitmap_dispatch.
  destruct (size1_out v Hv Hout) as (Hw & _ & _).
  replace ((mn <=? v) && (v <=? mx)) with false.
  2:{ symmetry. apply andb_false_iff.
      destruct (Z.leb_spec mn v), (Z.leb_spec v mx); auto. lia. }
  cbv zeta. rewrite Hw, Hc. reflexivity.
Qed.

Lemma keys_hashed v : HashSet.keys (hashed P bv sz mn mx v) = {[v]} ∪ members s.
Proof. unfold hashed. by rewrite keys_add, keys_transitionToHashSet. Qed.

Lemma hashOK_hashed v :
  validValue v → hashOK (hashed P bv sz mn mx v) (Z.min mn v) (Z.max mx v).
Proof.
  intros Hv. pose proof (bitmap_bounds _ _ _ OK).
  split; rewrite keys_hashed.
  - intros k [->%elem_of_singleton|Hk%members_s_range]%elem_of_union.
    + split; [done|lia].
    + split; [apply validValue_range; lia|lia].
  - destruct (Z.min_spec mn v) as [[_ ->]|[_ ->]]; [|set_solver].
    apply elem_of_union_r, min_in_members.
  - destruct (Z.max_spec mx v) as [[_ ->]|[_ ->]]; [set_solver|].
    apply elem_of_union_r, max_in_members.
Qed.

Lemma members_hash hs sz' mn' mx' :
  sz' = UnsignedMax → members (mkSet (U_hashSet hs) sz' mn' mx') = HashSet.keys hs.
Proof.
  intros ->. unfold members, toList, isBitVector. cbn [m_size hashSet m_inline].
  rewrite Z.eqb_refl. cbn [negb]. unfold HashSet.toList.
  apply set_eq. intros x. by rewrite elem_of_list_to_set, elem_of_elements.
Qed.

(** Every path of [add] in bit vector mode keeps the invariant, adds exactly
    the value, and reports whether it was new. *)
Lemma add_bitmap_spec v :
  validValue v →
  Inv (snd (add P s v))
  ∧ members (snd (add P s v)) = {[v]} ∪ members s
  ∧ isNewEntry (fst (add P s v)) = bool_decide (v ∉ members s).
Proof.
  intros Hv. destruct (decide (mn ≤ v ≤ mx)) as [Hin|Hout].
  { split; [by apply Inv_inrange|]. split; [by apply members_inrange|].
    rewrite add_inrange by done. cbn [fst isNewEntry].
    destruct (Z.testbit _ _) eqn:Hb; symmetry.
    - apply bool_decide_eq_false. intros Hn. apply Hn, members_s_spec. split; [lia|done].
    - apply bool_decide_eq_true. intros [_ Hb']%members_s_spec. congruence. }
  pose proof (out_not_member v Hout) as Hnew.
  pose proof (bitmap_bounds _ _ _ OK) as Hb.
  destruct (size1_out v Hv Hout) as (_ & Hle & Hne).
  assert (Hres : isNewEntry (fst (add P s v)) = true
                 → isNewEntry (fst (add P s v)) = bool_decide (v ∉ members s)).
  { intros ->. symmetry. by apply bool_decide_eq_true. }
  destruct (hashSetIsCheaper (sz + 1) (Z.min mn v) (Z.max mx v)) eqn:Hc.
  { rewrite add_toHash in * by done. cbn [fst snd isNewEntry] in *.
    split; [constructor; by apply hashOK_hashed|]. split; [|auto].
    rewrite members_hash by done. apply keys_hashed. }
  destruct (decide (mn ≤ v)) as [Hge|Hlt].
  - assert (Hgt : mx < v) by lia.
    rewrite (Z.min_l mn v), (Z.max_r mx v) in Hc by lia.
    rewrite add_up in * by done. cbn [fst snd isNewEntry] in *.
    pose proof (members_up v (sz + 1) Hv Hgt Hne) as Hm.
    split; [|split; [done|auto]].
    eapply Inv_of_members; [by apply bitmapOK_up|done|exact Hm|].
    by rewrite size_add_new.
  - assert (Hlt' : v < mn) by lia.
    rewrite (Z.min_r mn v), (Z.max_l mx v) in Hc by lia.
    rewrite add_down in * by done. cbn [fst snd isNewEntry] in *.
    pose proof (members_down v (sz + 1) Hv Hlt' Hne) as Hm.
    split; [|split; [done|auto]].
    eapply Inv_of_members; [by apply bitmapOK_down|done|exact Hm|].
    by rewrite size_add_new.
Qed.

End AddBitVector.

(** ** Insertion in hash set mode *)

Lemma transition_loop (f : Z → Z) (l : list Z) bv n :
  fold_left
    (λ acc oldValue,
       (snd (BitVector.quickSet (fst acc) (f oldValue)), wrapUnsigned (snd acc + 1)))
    l (bv, n)
  = (fold_left (λ nb it, snd (BitVector.quickSet nb (f it))) l bv,
     fold_left (λ c _, wrapUnsigned (c + 1)) l n).
Proof.
  revert bv n. induction l as [|a l IH]; intros bv n; cbn [fold_left]; [done|].
  cbn [fst snd]. by rewrite IH.
Qed.

Lemma count_loop (l : list Z) n :
  0 ≤ n → n + Z.of_nat (length l) ≤ 4294967295 →
  fold_left (λ c _, wrapUnsigned (c + 1)) l n = n + Z.of_nat (length l).
Proof.
  revert n. induction l as [|a l IH]; intros n Hn Hle; cbn [fold_left length] in *; [lia|].
  rewrite wrapUnsigned_small by lia. rewrite IH by lia. lia.
Qed.

Section AddHashSet.

Context (P : HashSet.Policy).
Context (hs : HashSet.t) (mn mx : Z).
Context (OK : hashOK hs mn mx).

Let s := mkSet (U_hashSet hs) UnsignedMax mn mx.

Lemma members_s_hash : members s = HashSet.keys hs.
Proof. by apply members_hash. Qed.

Lemma hash_bounds : 0 ≤ mn ∧ mn ≤ mx ∧ mx ≤ 4294967293.
Proof.
  destruct (hk_keys _ _ _ OK mn (hk_min _ _ _ OK)) as [Hv%validValue_range ?].
  destruct (hk_keys _ _ _ OK mx (hk_max _ _ _ OK)) as [Hv'%validValue_range ?].
  lia.
Qed.

Lemma add_hash_dispatch v :
  add P s v =
  let r := HashSet.add P hs v in
  if negb (fst r) then
    (mkAddResult false, mkSet (U_hashSet (snd r)) UnsignedMax mn mx)
  else
    let s1 := mkSet (U_hashSet (snd r)) UnsignedMax (Z.min mn v) (Z.max mx v) in
    if bitVectorIsCheaper (HashSet.capacity (snd r)) (Z.min mn v) (Z.max mx v)
    then (mkAddResult true, transitionToBitVector s1)
    else (mkAddResult true, s1).
Proof. reflexivity. Qed.

Lemma add_hash_old v :
  v ∈ HashSet.keys hs → add P s v = (mkAddResult false, s).
Proof.
  intros Hv. rewrite add_hash_dispatch. cbv zeta.
  unfold HashSet.add, HashSet.contains. by rewrite bool_decide_eq_true_2.
Qed.

Lemma hashOK_add v :
  validValue v → hashOK (snd (HashSet.add P hs v)) (Z.min mn v) (Z.max mx v).
Proof.
  intros Hv. pose proof hash_bounds. split; rewrite keys_add.
  - intros k [->%elem_of_singleton|Hk]%elem_of_union; [split; [done|lia]|].
    destruct (hk_keys _ _ _ OK k Hk). split; [done|lia].
  - destruct (Z.min_spec mn v) as [[_ ->]|[_ ->]]; [|set_solver].
    apply elem_of_union_r, (hk_min _ _ _ OK).
  - destruct (Z.max_spec mx v) as [[_ ->]|[_ ->]]; [set_solver|].
    apply elem_of_union_r, (hk_max _ _ _ OK).
Qed.

End AddHashSet.

(** The transition from a well-formed hash set to the bit vector. *)
Section ToBitVector.

Context (hs : HashSet.t) (mn mx : Z).
Context (OK : hashOK hs mn mx).

Let s := mkSet (U_hashSet hs) UnsignedMax mn mx.

Lemma key_range k : k ∈ HashSet.keys hs → 0 ≤ mn ≤ k ∧ k ≤ mx ≤ 4294967293.
Proof.
  intros Hk. pose proof (hash_bounds _ _ _ OK).
  destruct (hk_keys _ _ _ OK k Hk). lia.
Qed.

Lemma keyCount_range : 1 ≤ HashSet.keyCount hs ≤ 4294967294.
Proof.
  unfold HashSet.keyCount. split.
  - pose proof (hk_min _ _ _ OK) as Hin.
    destruct (decide (base.size (HashSet.keys hs) = 0%nat)) as [H0|]; [|lia].
    apply size_empty_inv in H0. set_solver.
  - etrans; [apply (size_within _ 0 4294967293)|]; [lia| |lia].
    intros x Hx%key_range. lia.
Qed.

Lemma transitionToBitVector_eq :
  transitionToBitVector s = mkSet (U_bitVector (rebuilt hs mn mx)) (HashSet.keyCount hs) mn mx.
Proof.
  unfold transitionToBitVector, s. cbn [hashSet m_inline m_min m_max].
  rewrite (transition_loop (λ it, wrapIndex (it - mn))). cbn [fst snd].
  pose proof keyCount_range as Hr. unfold HashSet.keyCount in *.
  rewrite count_loop; unfold HashSet.toList;
    change (length (elements (HashSet.keys hs))) with (base.size (HashSet.keys hs)).
  - done.
  - done.
  - lia.
Qed.

Lemma numBits_rebuilt : mx - mn < BitVector.numBits (rebuilt hs mn mx).
Proof.
  pose proof (hash_bounds _ _ _ OK). unfold rebuilt.
  rewrite numBits_fold_quickSet, wrapIndex_small by lia.
  unfold BitVector.ensureSize, BitVector.empty, BitVector.maxInlineBits.
  cbn [BitVector.numBits].
  destruct (Z.ltb_spec 63 (mx - mn + 1)); cbn [BitVector.numBits]; lia.
Qed.

Lemma testbit_rebuilt j :
  Z.testbit (BitVector.bits (rebuilt hs mn mx)) j = true ↔ 0 ≤ j ∧ j + mn ∈ HashSet.keys hs.
Proof.
  destruct (Z.le_gt_cases 0 j) as [Hj|Hj].
  2:{ rewrite Z.testbit_neg_r by lia. split; [done|lia]. }
  unfold rebuilt. rewrite testbit_fold_quickSet by (try done; intros; apply wrapIndex_range).
  assert (Z.testbit (BitVector.bits (BitVector.ensureSize BitVector.empty
            (wrapIndex (mx - mn + 1)))) j = false) as ->.
  { unfold BitVector.ensureSize. destruct (_ <? _); apply Z.bits_0. }
  unfold HashSet.toList. split.
  - intros [?|(k & Hk%elem_of_elements & Hkj)]; [done|].
    pose proof (key_range k Hk). rewrite wrapIndex_small in Hkj by lia.
    split; [done|]. by replace (j + mn) with k by lia.
  - intros [_ Hk]. right. exists (j + mn). split; [by apply elem_of_elements|].
    pose proof (key_range _ Hk). rewrite wrapIndex_small by lia. lia.
Qed.

Lemma bitmapOK_rebuilt : bitmapOK (rebuilt hs mn mx) mn mx.
Proof.
  pose proof (hash_bounds _ _ _ OK).
  split; try lia.
  - apply (hk_keys _ _ _ OK), (hk_min _ _ _ OK).
  - apply (hk_keys _ _ _ OK), (hk_max _ _ _ OK).
  - apply numBits_rebuilt.
  - intros i [Hi Hk%key_range]%testbit_rebuilt. lia.
  - apply testbit_rebuilt. split; [lia|]. apply (hk_min _ _ _ OK).
  - apply testbit_rebuilt. split; [lia|].
    replace (mx - mn + mn) with mx by lia. apply (hk_max _ _ _ OK).
Qed.

Lemma members_rebuilt sz :
  sz ≠ UnsignedMax →
  members (mkSet (U_bitVector (rebuilt hs mn mx)) sz mn mx) = HashSet.keys hs.
Proof.
  intros Hne. apply set_eq. intros x.
  rewrite (elem_of_members_bitmap _ _ _ bitmapOK_rebuilt) by done.
  rewrite testbit_rebuilt. replace (x - mn + mn) with x by lia.
  split; [tauto|]. intros Hk. pose proof (key_range _ Hk). split; [lia|]. split; [lia|done].
Qed.

Lemma Inv_transitionToBitVector : Inv (transitionToBitVector s).
Proof.
  rewrite transitionToBitVector_eq. pose proof keyCount_range.
  assert (HashSet.keyCount hs ≠ UnsignedMax) by (rewrite UnsignedMax_eq; lia).
  eapply Inv_of_members; [apply bitmapOK_rebuilt|done|by apply members_rebuilt|done].
Qed.

Lemma members_transitionToBitVector :
  members (transitionToBitVector s) = HashSet.keys hs.
Proof.
  rewrite transitionToBitVector_eq. apply members_rebuilt.
  pose proof keyCount_range. rewrite UnsignedMax_eq. lia.
Qed.

End ToBitVector.

(** ** One insertion, from any well-formed state *)

Section AddSpec.

Context (P : HashSet.Policy).

Lemma add_hash_spec hs mn mx v :
  hashOK hs mn mx → validValue v →
  let s := mkSet (U_hashSet hs) UnsignedMax mn mx in
  Inv (snd (add P s v))
  ∧ members (snd (add P s v)) = {[v]} ∪ members s
  ∧ isNewEntry (fst (add P s v)) = bool_decide (v ∉ members s).
Proof.
  intros OK Hv s. unfold s. rewrite (members_hash hs) by done.
  destruct (decide (v ∈ HashSet.keys hs)) as [Hin|Hnew].
  { rewrite add_hash_old by done. cbn [fst snd isNewEntry].
    split; [by constructor|]. rewrite (members_hash hs) by done.
    split; [set_solver|]. symmetry. apply bool_decide_eq_false. tauto. }
  rewrite add_hash_dispatch. cbv zeta. rewrite fst_add.
  rewrite (bool_decide_eq_true_2 _ Hnew). cbn [negb].
  pose proof (hashOK_add P _ _ _ OK v Hv) as OK'.
  destruct (bitVectorIsCheaper _ _ _); cbn [fst snd isNewEntry].
  - split; [by apply Inv_transitionToBitVector|].
    rewrite (members_transitionToBitVector _ _ _ OK'). by rewrite keys_add.
  - split; [by constructor|]. rewrite members_hash by done. by rewrite keys_add.
Qed.

Theorem add_spec s v :
  Inv s → validValue v →
  Inv (snd (add P s v))
  ∧ members (snd (add P s v)) = {[v]} ∪ members s
  ∧ isNewEntry (fst (add P s v)) = bool_decide (v ∉ members s).
Proof.
  intros [|bv mn mx OK|hs mn mx OK] Hv.
  - rewrite add_emptySet, members_emptySet. cbn [fst snd isNewEntry].
    split; [by apply Inv_singleton|]. rewrite members_singleton by done.
    split; [set_solver|]. symmetry. apply bool_decide_eq_true. set_solver.
  - by apply add_bitmap_spec.
  - by apply add_hash_spec.
Qed.

Lemma add_Inv s v : Inv s → validValue v → Inv (snd (add P s v)).
Proof. intros Hs Hv. by destruct (add_spec s v Hs Hv). Qed.

Lemma add_members s v :
  Inv s → validValue v → members (snd (add P s v)) = {[v]} ∪ members s.
Proof. intros Hs Hv. by destruct (add_spec s v Hs Hv) as (_ & ? & _). Qed.

Lemma add_isNewEntry s v :
  Inv s → validValue v →
  isNewEntry (fst (add P s v)) = bool_decide (v ∉ members s).
Proof. intros Hs Hv. by destruct (add_spec s v Hs Hv) as (_ & _ & ?). Qed.

Lemma reachable_Inv s : reachable P s → Inv s.
Proof. induction 1; [constructor|by apply add_Inv]. Qed.

Lemma addAll_snoc vs v s :
  addAll P (vs ++ [v]) s = snd (add P (addAll P vs s) v).
Proof. unfold addAll. by rewrite fold_left_app. Qed.

Lemma addAll_reachable vs s :
  reachable P s → Forall validValue vs → reachable P (addAll P vs s).
Proof.
  intros Hs. induction vs as [|v vs IH] using rev_ind; intros Hvs; [exact Hs|].
  apply Forall_app in Hvs as [Hvs Hv]. apply Forall_inv in Hv.
  rewrite addAll_snoc. constructor; [by apply IH|done].
Qed.

Lemma addAll_members vs s :
  Inv s → Forall validValue vs →
  members (addAll P vs s) = list_to_set vs ∪ members s.
Proof.
  intros Hs. revert s Hs. induction vs as [|v vs IH]; intros s Hs Hvs.
  - cbn. set_solver.
  - apply Forall_cons in Hvs as [Hv Hvs]. cbn [addAll fold_left].
    change (fold_left _ vs ?x) with (addAll P vs x).
    rewrite IH by (try done; by apply add_Inv).
    rewrite add_members by done. set_solver.
Qed.

End AddSpec.

(** ** Queries on a well-formed state *)

Lemma contains_spec s w :
  Inv s → 0 ≤ w ≤ IndexMax → contains s w = bool_decide (w ∈ members s).
Proof.
  intros [|bv mn mx OK|hs mn mx OK] Hw.
  - rewrite members_emptySet. unfold contains, emptySet, isBitVector.
    cbn [m_size m_min bitVector m_inline]. change (0 =? UnsignedMax) with false.
    cbn [negb]. destruct (w <? 0); [done|].
    unfold BitVector.get, BitVector.quickGet, BitVector.empty. cbn [BitVector.bits].
    rewrite Z.bits_0. by destruct (_ <=? _).
  - pose proof (bitmap_size_ne bv _ mn mx OK eq_refl) as Hne.
    rewrite (contains_bitmap _ _ _ OK) by done.
    destruct (Z.leb_spec mn w); cbn [andb].
    + destruct (Z.testbit _ _) eqn:Hb; symmetry.
      * apply bool_decide_eq_true, (elem_of_members_bitmap _ _ _ OK); done.
      * apply bool_decide_eq_false.
        intros [_ ?]%(elem_of_members_bitmap _ _ _ OK); [congruence|done].
    + symmetry. apply bool_decide_eq_false.
      intros [? _]%(elem_of_members_bitmap _ _ _ OK); [lia|done].
  - rewrite members_hash by done. unfold contains, isBitVector.
    cbn [m_size hashSet m_inline]. by rewrite Z.eqb_refl.
Qed.

Lemma size_spec s : Inv s → size s = Z.of_nat (base.size (members s)).
Proof.
  intros [|bv mn mx OK|hs mn mx OK].
  - done.
  - pose proof (bitmap_size_ne bv _ mn mx OK eq_refl) as Hne.
    rewrite (size_members_bitmap _ _ _ OK) by done.
    unfold size. by rewrite (isBitVector_bitmap _ _ _ OK).
  - rewrite members_hash by done. unfold size, isBitVector.
    cbn [m_size hashSet m_inline]. by rewrite Z.eqb_refl.
Qed.

(** ** The claims about membership, size and transitions *)

(** C1 (round trip).  After any run of insertions of non-reserved values,
    [contains] answers true exactly for the values inserted so far: true for
    each of them, false for every other non-reserved value.  The run is
    arbitrary, so this holds after each single [add] of a longer run. *)
Theorem contains_after_adds P (vs : list Z) (w : Z) :
  Forall validValue vs → validValue w →
  contains (addAll P vs emptySet) w = true ↔ w ∈ vs.
Proof.
  intros Hvs [Hw _].
  pose proof (reachable_Inv P _ (addAll_reachable P vs _ (reachable_empty P) Hvs)) as HI.
  rewrite (contains_spec _ w HI Hw), bool_decide_eq_true.
  rewrite addAll_members by (done || constructor).
  rewrite members_emptySet. set_solver.
Qed.

(** C2 (size consistency).  After any run of insertions of non-reserved
    values, [size()] is the number of distinct values inserted, whatever
    transitions happened on the way. *)
Theorem size_after_adds P (vs : list Z) :
  Forall validValue vs →
  size (addAll P vs emptySet) = Z.of_nat (length (remove_dups vs)).
Proof.
  intros Hvs.
  pose proof (reachable_Inv P _ (addAll_reachable P vs _ (reachable_empty P) Hvs)) as HI.
  rewrite (size_spec _ HI), addAll_members by (done || constructor).
  rewrite members_emptySet, (right_id_L ∅ (∪)).
  rewrite <- (size_list_to_set (C := gset Z) (remove_dups vs))
    by apply NoDup_remove_dups.
  do 2 f_equal. apply set_eq. intros x.
  by rewrite !elem_of_list_to_set, elem_of_remove_dups.
Qed.

(** C3 (no loss across transitions).  When an [add] on a reachable state
    changes the representation, in either direction, the members afterwards
    are the members before together with the inserted value: nothing is lost
    and nothing else appears, both for the iteration and for [contains]. *)
Theorem transition_keeps_members P s (v : Z) :
  reachable P s → validValue v →
  isBitVector (snd (add P s v)) ≠ isBitVector s →
  members (snd (add P s v)) = {[v]} ∪ members s
  ∧ ∀ w, validValue w →
      contains (snd (add P s v)) w = contains s w || bool_decide (w = v).
Proof.
  intros Hs%reachable_Inv Hv _.
  pose proof (add_Inv P s v Hs Hv) as HI.
  pose proof (add_members P s v Hs Hv) as Hm.
  split; [done|]. intros w [Hw _].
  rewrite (contains_spec _ w HI Hw), (contains_spec _ w Hs Hw), Hm.
  apply eq_true_iff_eq.
  rewrite orb_true_iff, !bool_decide_eq_true. set_solver.
Qed.

(** C7 (membership query).  On a reachable state, [contains] in bit vector
    mode answers false below [m_min] and otherwise tells whether bit
    [value - m_min] is set; in hash set mode it is the hash set's answer.
    [contains] is a [const] member function: it is embedded as a function of
    the state that returns no state, so the container and its mode are the
    same after the call. *)
Theorem contains_by_mode P s (value : Z) :
  reachable P s → validValue value →
  contains s value =
  if isBitVector s then
    if value <? m_min s then false
    else Z.testbit (BitVector.bits (bitVector s)) (value - m_min s)
  else HashSet.contains (hashSet s) value.
Proof.
  intros Hs%reachable_Inv [Hw _]. destruct Hs as [|bv mn mx OK|hs mn mx OK].
  - rewrite (contains_spec _ _ Inv_empty Hw), members_emptySet.
    cbn. destruct (value <? 0); [done|]. by rewrite Z.bits_0.
  - rewrite (isBitVector_bitmap _ _ _ OK).
    rewrite (contains_bitmap _ _ _ OK) by (done || by eapply bitmap_size_ne).
    cbn [m_min bitVector m_inline].
    by destruct (Z.leb_spec mn value), (Z.ltb_spec value mn); try lia.
  - unfold contains, isBitVector. cbn [m_size]. by rewrite Z.eqb_refl.
Qed.

(** C8 (idempotence).  Inserting an absent value twice in a row reports
    "new" and then "already present", and the second call leaves [size()]
    as it was after the first. *)
Theorem add_twice P s (v : Z) :
  reachable P s → validValue v → contains s v = false →
  let r1 := add P s v in
  let r2 := add P (snd r1) v in
  isNewEntry (fst r1) = true ∧ isNewEntry (fst r2) = false
  ∧ size (snd r2) = size (snd r1).
Proof.
  intros Hs%reachable_Inv Hv Hc r1 r2.
  pose proof (add_Inv P s v Hs Hv) as H1.
  pose proof (add_Inv P _ v H1 Hv) as H2.
  rewrite (contains_spec _ v Hs (proj1 Hv)) in Hc. apply bool_decide_eq_false in Hc.
  unfold r2, r1. rewrite !add_isNewEntry, !size_spec, !add_members by done.
  split; [by apply bool_decide_eq_true|].
  split; [apply bool_decide_eq_false; set_solver|].
  do 2 f_equal. set_solver.
Qed.

(** C10 (the minimum is a member).  In every reachable non-empty state in bit
    vector mode, bit 0 is set, and so [contains(m_min)] is true. *)
Theorem min_bit_set P s :
  reachable P s → isBitVector s = true → size s ≠ 0 →
  BitVector.get (bitVector s) 0 = true ∧ contains s (m_min s) = true.
Proof.
  intros Hs%reachable_Inv Hb Hsz. destruct Hs as [|bv mn mx OK|hs mn mx OK].
  - done.
  - pose proof (bitmap_bounds _ _ _ OK). pose proof (bm_room _ _ _ OK).
    cbn [bitVector m_inline m_min]. split.
    + unfold BitVector.get, BitVector.quickGet.
      destruct (Z.leb_spec (BitVector.numBits bv) 0); [lia|apply (bm_first _ _ _ OK)].
    + rewrite (contains_bitmap _ _ _ OK);
        [|by eapply bitmap_size_ne|change IndexMax with 4294967295; lia].
      rewrite Z.leb_refl, Z.sub_diag. apply (bm_first _ _ _ OK).
  - unfold isBitVector in Hb. cbn [m_size] in Hb. by rewrite Z.eqb_refl in Hb.
Qed.

(** ** The diagnostic pass *)

Lemma fold_min_spec (ys : list Z) (a m : Z) :
  (∀ y, y ∈ ys → m ≤ y) → m ≤ a → m ∈ ys ∨ a = m → fold_left Z.min ys a = m.
Proof.
  revert a. induction ys as [|y ys IH]; intros a Hys Ha Hm; cbn [fold_left].
  - destruct Hm as [Hm|Hm]; [by apply elem_of_nil in Hm|done].
  - assert (m ≤ y) by (apply Hys; left).
    apply IH; [intros z Hz; apply Hys; by right|lia|].
    destruct Hm as [[->|Hm]%elem_of_cons| -> ]; [right; lia|by left|right; lia].
Qed.

Lemma fold_max_spec (ys : list Z) (a m : Z) :
  (∀ y, y ∈ ys → y ≤ m) → a ≤ m → m ∈ ys ∨ a = m → fold_left Z.max ys a = m.
Proof.
  revert a. induction ys as [|y ys IH]; intros a Hys Ha Hm; cbn [fold_left].
  - destruct Hm as [Hm|Hm]; [by apply elem_of_nil in Hm|done].
  - assert (y ≤ m) by (apply Hys; left).
    apply IH; [intros z Hz; apply Hys; by right|lia|].
    destruct Hm as [[->|Hm]%elem_of_cons| -> ]; [right; lia|by left|right; lia].
Qed.

Lemma scan_loop (g : Z → Z) (count : bool) (l : list Z) (start : Scan) :
  fold_left
    (λ acc it,
       mkScan (if count then wrapUnsigned (numElements acc + 1) else numElements acc)
         (Z.min (scanMin acc) (g it)) (Z.max (scanMax acc) (g it)))
    l start
  = mkScan
      (if count then fold_left (λ c _, wrapUnsigned (c + 1)) l (numElements start)
       else numElements start)
      (fold_left Z.min (g <$> l) (scanMin start))
      (fold_left Z.max (g <$> l) (scanMax start)).
Proof.
  revert start. induction l as [|a l IH]; intros start; cbn [fold_left fmap list_fmap].
  - by destruct start, count.
  - rewrite IH. cbn [numElements scanMin scanMax]. by destruct count.
Qed.

Lemma validate_bitmap bv mn mx :
  bitmapOK bv mn mx →
  validate (mkSet (U_bitVector bv) (Z.of_nat (length (BitVector.setBits bv))) mn mx)
  = true.
Proof.
  intros OK. pose proof (bitmap_bounds _ _ _ OK) as Hb.
  pose proof (setBits_count _ _ _ OK) as Hc.
  unfold validate. rewrite (isBitVector_bitmap _ _ _ OK).
  cbn [m_size m_min m_max bitVector m_inline].
  rewrite (scan_loop (λ it, wrapIndex (mn + wrapIndex it)) true).
  cbn [numElements scanMin scanMax].
  rewrite count_loop by lia. rewrite Z.add_0_l, Z.eqb_refl.
  rewrite (proj2 (Z.eqb_neq _ 0)) by lia. cbn [andb].
  assert (Hg : ∀ y, y ∈ (λ it, wrapIndex (mn + wrapIndex it)) <$> BitVector.setBits bv
                    ↔ ∃ it, y = mn + it ∧ it ∈ BitVector.setBits bv).
  { intros y. rewrite list_elem_of_fmap. split; intros (it & -> & Hit); exists it;
      pose proof (setBits_range _ _ _ OK it Hit);
      (split; [|done]); rewrite !wrapIndex_small by (rewrite ?wrapIndex_small; lia);
      done. }
  rewrite (fold_min_spec _ _ mn), (fold_max_spec _ _ mx), !Z.eqb_refl; [done|..].
  - intros y (it & -> & Hit%(setBits_range _ _ _ OK))%Hg. lia.
  - lia.
  - left. apply Hg. exists (mx - mn). split; [lia|].
    apply (elem_of_setBits_ok _ _ _ OK), (bm_last _ _ _ OK).
  - intros y (it & -> & Hit%(setBits_range _ _ _ OK))%Hg. lia.
  - change IndexMax with 4294967295. lia.
  - left. apply Hg. exists 0. split; [lia|].
    apply (elem_of_setBits_ok _ _ _ OK), (bm_first _ _ _ OK).
Qed.

Lemma validate_hash hs mn mx :
  hashOK hs mn mx → validate (mkSet (U_hashSet hs) UnsignedMax mn mx) = true.
Proof.
  intros OK. pose proof (hash_bounds _ _ _ OK) as Hb.
  unfold validate, isBitVector. cbn [m_size m_min m_max hashSet m_inline].
  rewrite Z.eqb_refl. cbn [negb]. change (UnsignedMax =? 0) with false. cbv iota.
  rewrite (scan_loop (λ it, it) false). cbn [scanMin scanMax].
  rewrite list_fmap_id. unfold HashSet.toList.
  rewrite (fold_min_spec _ _ mn), (fold_max_spec _ _ mx), !Z.eqb_refl; [done|..].
  - intros y Hy%elem_of_elements. apply (hk_keys _ _ _ OK) in Hy. lia.
  - lia.
  - left. apply elem_of_elements, (hk_max _ _ _ OK).
  - intros y Hy%elem_of_elements. apply (hk_keys _ _ _ OK) in Hy. lia.
  - change IndexMax with 4294967295. lia.
  - left. apply elem_of_elements, (hk_min _ _ _ OK).
Qed.

(** C6 (bounds).  In every reachable state all checks of [validate()]
    succeed; in particular, when the set is not empty, [m_min] and [m_max]
    are members and every member lies between them, and in bit vector mode
    [m_size] is the number of set bits. *)
Theorem validate_reachable P s :
  reachable P s →
  validate s = true
  ∧ (size s ≠ 0 →
     m_min s ∈ members s ∧ m_max s ∈ members s
     ∧ ∀ x, x ∈ members s → m_min s ≤ x ≤ m_max s)
  ∧ (isBitVector s = true →
     m_size s = Z.of_nat (length (BitVector.setBits (bitVector s)))).
Proof.
  intros Hs%reachable_Inv. destruct Hs as [|bv mn mx OK|hs mn mx OK].
  - done.
  - split; [by apply validate_bitmap|]. split; [|done]. intros _.
    cbn [m_min m_max]. split; [by eapply min_in_members|].
    split; [by eapply max_in_members|]. intros x. by eapply members_s_range.
  - split; [by apply validate_hash|]. split.
    + intros _. rewrite members_hash by done. cbn [m_min m_max].
      split; [apply (hk_min _ _ _ OK)|]. split; [apply (hk_max _ _ _ OK)|].
      intros x Hx. by apply (hk_keys _ _ _ OK).
    + unfold isBitVector. cbn [m_size]. by rewrite Z.eqb_refl.
Qed.

(** ** Downward extension *)

(** C5 (downward extension).  In bit vector mode, when a value below
    [m_min] is inserted and the cost comparison decides against the hash
    set, the bit vector is rebuilt to cover [value .. m_max]: each bit that
    was set at [p] is set at [p + (m_min - value)], bit 0 is set, [m_min]
    becomes the value, and the old members and the new value are members.
    In particular, inserting 50 and then 10 into an empty set gives a set
    with both members, of size 2, with [m_min = 10]. *)
Theorem add_below_min P s (v : Z) :
  reachable P s → isBitVector s = true → size s ≠ 0 →
  validValue v → v < m_min s →
  hashSetIsCheaper (wrapUnsigned (m_size s + 1))
    (Z.min (m_min s) v) (Z.max (m_max s) v) = false →
  let s' := snd (add P s v) in
  (isBitVector s' = true ∧ m_min s' = v ∧ m_max s' = m_max s
   ∧ m_max s - v < BitVector.numBits (bitVector s')
   ∧ (∀ p, BitVector.get (bitVector s) p = true →
           BitVector.get (bitVector s') (p + (m_min s - v)) = true)
   ∧ BitVector.get (bitVector s') 0 = true
   ∧ (∀ w, validValue w → contains s w = true → contains s' w = true)
   ∧ contains s' v = true)
  ∧ let e := addAll P [50; 10] emptySet in
    contains e 50 = true ∧ contains e 10 = true ∧ size e = 2 ∧ m_min e = 10.
Proof.
  intros Hs Hb Hsz Hv Hlt Hc s'. split; [|by vm_compute].
  pose proof (reachable_Inv _ _ Hs) as HI.
  pose proof (add_Inv P s v HI Hv) as HI'.
  pose proof (add_members P s v HI Hv) as Hm.
  assert (Hcont : (∀ w, validValue w → contains s w = true → contains s' w = true)
                  ∧ contains s' v = true).
  { split; [intros w Hw|]; unfold s';
      rewrite ?(contains_spec s) by (done || apply Hw);
      rewrite (contains_spec _ _ HI') by (apply Hw || apply Hv);
      rewrite ?bool_decide_eq_true, Hm; set_solver. }
  destruct Hcont as [Hc1 Hc2]. clear HI' Hm.
  destruct HI as [|bv mn mx OK|hs mn mx OK].
  - done.
  - cbn [m_size m_min m_max bitVector m_inline] in *.
    pose proof (bitmap_bounds _ _ _ OK) as Hbd.
    destruct (size1_out bv _ mn mx OK eq_refl v Hv ltac:(lia)) as (Hw & _ & Hne).
    rewrite Hw, (Z.min_r mn v), (Z.max_l mx v) in Hc by lia.
    unfold s' in *. rewrite (add_down P bv _ mn mx OK eq_refl v Hv Hlt Hc) in *.
    cbn [snd m_min m_max bitVector m_inline] in *.
    pose proof (numBits_rebased bv mn mx OK v Hv Hlt) as Hroom.
    split; [apply negb_true_iff, Z.eqb_neq, Hne|]. do 3 (split; [done|]).
    split; [|split; [|done]].
    + intros p Hp. unfold BitVector.get, BitVector.quickGet in *.
      destruct (BitVector.numBits bv <=? p); [done|].
      pose proof (testbit_neg_false _ _ Hp). pose proof (bm_within _ _ _ OK p Hp).
      destruct (Z.leb_spec (BitVector.numBits (rebased bv mn mx v)) (p + (mn - v)));
        [lia|].
      apply (testbit_rebased bv mn mx OK); try done. right. split; [lia|].
      by replace (p + (mn - v) - (mn - v)) with p by lia.
    + unfold BitVector.get, BitVector.quickGet.
      destruct (Z.leb_spec (BitVector.numBits (rebased bv mn mx v)) 0); [lia|].
      apply (testbit_rebased bv mn mx OK); auto.
  - unfold isBitVector in Hb. cbn [m_size] in Hb. by rewrite Z.eqb_refl in Hb.
Qed.

(** ** Moving *)

(** C9 (move), as the code has it.  The move constructor gives the new object
    the representation, the members, the size and the mode of the source.
    The source keeps its three fields and is left with an empty
    representation: it has no members, but its [size()] is 0 only in hash set
    mode; in bit vector mode it still answers the old count. *)
Theorem moveConstruct_spec P other :
  reachable P other →
  let this := fst (moveConstruct other) in
  let other' := snd (moveConstruct other) in
  (this = other ∧ isBitVector this = isBitVector other
   ∧ members this = members other ∧ size this = size other)
  ∧ (m_size other' = m_size other ∧ m_min other' = m_min other
     ∧ m_max other' = m_max other)
  ∧ (members other' = ∅ ∧ ∀ w, contains other' w = false)
  ∧ size other' = if isBitVector other then m_size other else 0.
Proof.
  intros Hs%reachable_Inv this other'.
  assert (Hthis : this = other).
  { destruct Hs as [|bv mn mx OK|hs mn mx OK]; [done| |];
      unfold this, moveConstruct; cbv zeta; unfold isBitVector;
      cbn [m_size m_min m_max m_inline bitVector hashSet].
    - by rewrite (proj2 (Z.eqb_neq _ _) (bitmap_size_ne bv _ mn mx OK eq_refl)).
    - by rewrite Z.eqb_refl. }
  split; [by rewrite Hthis|].
  unfold other', moveConstruct, size, members, toList, contains.
  cbv zeta. unfold isBitVector. cbn [m_size].
  destruct (m_size other =? UnsignedMax) eqn:Hmode;
    cbn [negb snd fst m_size m_min m_max bitVector hashSet m_inline moveBitVector
         moveHashSet]; rewrite Hmode; cbn [negb].
  - split; [done|]. split; [|done]. split; [done|]. intros w.
    by apply bool_decide_eq_false.
  - split; [done|]. split; [|done]. split; [done|]. intros w.
    destruct (w <? m_min other); [done|].
    unfold BitVector.get, BitVector.quickGet, BitVector.empty. cbn [BitVector.bits].
    rewrite Z.bits_0. by destruct (_ <=? _).
Qed.

(** C9, as stated, fails: after moving a one-element set, the source still
    reports size 1. *)
Lemma moved_from_size_not_zero :
  size (snd (moveConstruct (addAll HashSet.doubling [5] emptySet))) ≠ 0.
Proof. by vm_compute. Qed.

(** ** The transition policy *)

(** The mode of a well-formed state can be read off the union. *)
Lemma Inv_mode s :
  Inv s →
  isBitVector s = match m_inline s with U_bitVector _ => true | U_hashSet _ => false end.
Proof.
  intros [|bv mn mx OK|hs mn mx OK]; [done|by apply isBitVector_bitmap|].
  unfold isBitVector. cbn [m_size m_inline]. by rewrite Z.eqb_refl.
Qed.

(** When the estimates fit in an [unsigned], the two comparisons are the
    inequalities over the integers. *)
Lemma bitVectorIsCheaper_exact (capacity min max : Z) :
  0 ≤ min ≤ max → max ≤ IndexMax →
  0 ≤ capacity * sizeofIndexType ≤ UnsignedMax →
  bitVectorIsCheaper capacity min max = true
  ↔ 2 * ((max - min) / 8) < capacity * sizeofIndexType.
Proof.
  change IndexMax with 4294967295. rewrite UnsignedMax_eq. intros Hm Hmax Hcap.
  unfold bitVectorIsCheaper. cbv zeta.
  assert (0 ≤ (max - min) / 8 ≤ 536870911).
  { Z.div_mod_to_equations. lia. }
  rewrite (wrapIndex_small (max - min)) by lia.
  rewrite (wrapUnsigned_small ((max - min) / 8)) by lia.
  rewrite !wrapUnsigned_small by lia. rewrite Z.ltb_lt. lia.
Qed.

Lemma hashSetIsCheaper_exact (size newMin newMax : Z) :
  0 ≤ newMin ≤ newMax → newMax ≤ IndexMax →
  2 * (Z.max 8 size * 3 * sizeofIndexType) ≤ UnsignedMax →
  hashSetIsCheaper size newMin newMax = true
  ↔ 2 * (Z.max 8 size * 3 * sizeofIndexType) < (newMax - newMin) / 8.
Proof.
  change IndexMax with 4294967295. rewrite UnsignedMax_eq.
  unfold sizeofIndexType. intros Hm Hmax Hsz.
  unfold hashSetIsCheaper, sizeofIndexType. cbv zeta.
  assert (0 ≤ (newMax - newMin) / 8 ≤ 536870911).
  { Z.div_mod_to_equations. lia. }
  rewrite (wrapIndex_small (newMax - newMin)) by lia.
  rewrite (wrapUnsigned_small ((newMax - newMin) / 8)) by lia.
  rewrite (wrapUnsigned_small (Z.max 8 size * 3)) by lia.
  rewrite (wrapUnsigned_small (Z.max 8 size * 3 * 4)) by lia.
  rewrite (wrapUnsigned_small (Z.max 8 size * 3 * 4 * 2)) by lia.
  rewrite Z.ltb_lt. lia.
Qed.

(** The mode after an insertion: [add] leaves bit vector mode exactly on an
    out-of-bounds insertion for which [hashSetIsCheaper] holds, and leaves
    hash set mode exactly on a new value for which [bitVectorIsCheaper]
    holds. *)
Lemma add_mode P s (v : Z) :
  reachable P s → validValue v →
  isBitVector (snd (add P s v)) =
  if isBitVector s then
    negb (negb (m_size s =? 0)
          && negb ((m_min s <=? v) && (v <=? m_max s))
          && hashSetIsCheaper (m_size s + 1)
               (Z.min (m_min s) v) (Z.max (m_max s) v))
  else
    negb (HashSet.contains (hashSet s) v)
    && bitVectorIsCheaper (HashSet.capacity (snd (HashSet.add P (hashSet s) v)))
         (Z.min (m_min s) v) (Z.max (m_max s) v).
Proof.
  intros Hs%reachable_Inv Hv. pose proof (add_Inv P s v Hs Hv) as HI.
  rewrite (Inv_mode _ HI). destruct Hs as [|bv mn mx OK|hs mn mx OK].
  - done.
  - rewrite (isBitVector_bitmap _ _ _ OK). cbn [m_size m_min m_max].
    pose proof (bitmap_size_range bv _ mn mx OK eq_refl) as Hr.
    pose proof (bitmap_bounds _ _ _ OK) as Hb.
    rewrite (proj2 (Z.eqb_neq _ 0)) by lia. cbn [negb andb].
    destruct (decide (mn ≤ v ≤ mx)) as [Hin|Hout].
    { rewrite (add_inrange P bv _ mn mx OK eq_refl v Hin). cbn [snd m_inline].
      by rewrite (proj2 (Z.leb_le mn v)), (proj2 (Z.leb_le v mx)) by lia. }
    replace ((mn <=? v) && (v <=? mx)) with false.
    2:{ symmetry. apply andb_false_iff.
        destruct (Z.leb_spec mn v), (Z.leb_spec v mx); auto. lia. }
    cbn [negb andb].
    destruct (hashSetIsCheaper _ _ _) eqn:Hc.
    { by rewrite (add_toHash P bv _ mn mx OK eq_refl v Hv Hout Hc). }
    destruct (decide (mn ≤ v)) as [Hge|Hlt].
    + rewrite (Z.min_l mn v), (Z.max_r mx v) in Hc by lia.
      rewrite (add_up P bv _ mn mx OK eq_refl v Hv ltac:(lia) Hc). reflexivity.
    + rewrite (Z.min_r mn v), (Z.max_l mx v) in Hc by lia.
      rewrite (add_down P bv _ mn mx OK eq_refl v Hv ltac:(lia) Hc). reflexivity.
  - unfold isBitVector at 1. cbn [m_size m_min m_max hashSet m_inline].
    rewrite Z.eqb_refl. cbn [negb]. unfold HashSet.contains.
    destruct (decide (v ∈ HashSet.keys hs)) as [Hin|Hnew].
    { rewrite (add_hash_old P hs mn mx v Hin).
      by rewrite (bool_decide_eq_true_2 _ Hin). }
    rewrite (bool_decide_eq_false_2 _ Hnew). cbn [negb andb].
    rewrite add_hash_dispatch. cbv zeta.
    rewrite fst_add, (bool_decide_eq_true_2 _ Hnew). cbn [negb].
    by destruct (bitVectorIsCheaper _ _ _).
Qed.

(** Below the sizes at which the estimates overflow, the mode changes exactly
    under the two inequalities over the integers. *)
Lemma add_leaves_bitVector_exact P s (v : Z) :
  reachable P s → validValue v → isBitVector s = true →
  2 * (Z.max 8 (size s + 1) * 3 * sizeofIndexType) ≤ UnsignedMax →
  isBitVector (snd (add P s v)) = false
  ↔ size s ≠ 0 ∧ ¬ (m_min s ≤ v ≤ m_max s)
    ∧ 2 * (Z.max 8 (size s + 1) * 3 * sizeofIndexType)
      < (Z.max (m_max s) v - Z.min (m_min s) v) / 8.
Proof.
  intros Hs Hv Hb Hfit. rewrite (add_mode P s v Hs Hv), Hb.
  unfold size in *. rewrite Hb in *.
  apply reachable_Inv in Hs. pose proof (proj1 (validValue_range v) Hv) as Hr.
  assert (Hbd : 0 ≤ m_min s ≤ m_max s ∧ m_max s ≤ 4294967293).
  { destruct Hs as [|bv mn mx OK|hs mn mx OK]; cbn [m_min m_max emptySet]; [unfold emptySet; cbn [m_min m_max]; lia| |].
    - pose proof (bitmap_bounds _ _ _ OK). lia.
    - pose proof (hash_bounds _ _ _ OK). lia. }
  rewrite negb_false_iff, !andb_true_iff, !negb_true_iff, Z.eqb_neq.
  rewrite hashSetIsCheaper_exact; [|lia|change IndexMax with 4294967295; lia|done].
  rewrite andb_false_iff, Z.leb_gt, Z.leb_gt. lia.
Qed.

Lemma add_leaves_hashSet_exact P s (v : Z) :
  reachable P s → validValue v → isBitVector s = false →
  let capacity := HashSet.capacity (snd (HashSet.add P (hashSet s) v)) in
  0 ≤ capacity * sizeofIndexType ≤ UnsignedMax →
  isBitVector (snd (add P s v)) = true
  ↔ HashSet.contains (hashSet s) v = false
    ∧ 2 * ((Z.max (m_max s) v - Z.min (m_min s) v) / 8) < capacity * sizeofIndexType.
Proof.
  intros Hs Hv Hb capacity Hfit. rewrite (add_mode P s v Hs Hv), Hb.
  apply reachable_Inv in Hs. pose proof (proj1 (validValue_range v) Hv) as Hr.
  assert (Hbd : 0 ≤ m_min s ≤ m_max s ∧ m_max s ≤ 4294967293).
  { destruct Hs as [|bv mn mx OK|hs mn mx OK]; cbn [m_min m_max emptySet]; [unfold emptySet; cbn [m_min m_max]; lia| |].
    - pose proof (bitmap_bounds _ _ _ OK). lia.
    - pose proof (hash_bounds _ _ _ OK). lia. }
  rewrite andb_true_iff, negb_true_iff. fold capacity.
  rewrite bitVectorIsCheaper_exact by (try done; change IndexMax with 4294967295; lia).
  done.
Qed.

(** ** A long dense run *)

Section DenseRun.

Context (P : HashSet.Policy).

Lemma testbit_ones n i : 0 ≤ n → Z.testbit (Z.ones n) i = true ↔ 0 ≤ i < n.
Proof. intros Hn. by apply Z.ones_spec_iff. Qed.

Lemma setbit_ones n : 0 ≤ n → Z.setbit (Z.ones n) n = Z.ones (n + 1).
Proof.
  intros Hn. apply Z.bits_inj'. intros i Hi. rewrite Z.setbit_eqb by lia.
  apply eq_true_iff_eq.
  rewrite orb_true_iff, Z.eqb_eq, !testbit_ones by lia. lia.
Qed.

Lemma bitmapOK_dense n :
  1 ≤ n ≤ 4294967294 →
  bitmapOK (BitVector.mk (Z.ones n) (Z.max BitVector.maxInlineBits n)) 0 (n - 1).
Proof.
  intros Hn. split; cbn [BitVector.bits BitVector.numBits].
  - apply validValue_range. lia.
  - apply validValue_range. lia.
  - lia.
  - lia.
  - intros i Hi%testbit_ones; lia.
  - apply testbit_ones; lia.
  - apply testbit_ones; lia.
Qed.

Lemma length_dense n :
  1 ≤ n ≤ 4294967294 →
  n = Z.of_nat (length (BitVector.setBits
        (BitVector.mk (Z.ones n) (Z.max BitVector.maxInlineBits n)))).
Proof.
  intros Hn. rewrite (length_NoDup_set _ (NoDup_setBits _)).
  assert ((list_to_set (BitVector.setBits
             (BitVector.mk (Z.ones n) (Z.max BitVector.maxInlineBits n))) : gset Z)
          = list_to_set (seqZ 0 n)) as ->.
  { apply set_eq. intros i.
    rewrite !elem_of_list_to_set, elem_of_setBits, elem_of_seqZ.
    cbn [BitVector.bits BitVector.numBits]. rewrite testbit_ones by lia. lia. }
  rewrite size_list_to_set by apply NoDup_seqZ. rewrite length_seqZ. lia.
Qed.

Lemma add_dense n :
  1 ≤ n < 178956970 →
  add P (denseState n) n = (mkAddResult true, denseState (n + 1)).
Proof.
  intros Hn. unfold denseState.
  assert (Hc : hashSetIsCheaper (n + 1) 0 n = false).
  { apply not_true_is_false. rewrite hashSetIsCheaper_exact.
    - unfold sizeofIndexType. Z.div_mod_to_equations. lia.
    - lia.
    - change IndexMax with 4294967295. lia.
    - rewrite UnsignedMax_eq. unfold sizeofIndexType. lia. }
  rewrite (add_up P _ n 0 (n - 1) (bitmapOK_dense n ltac:(lia))
             (length_dense n ltac:(lia)) n); [|apply validValue_range; lia|lia|done].
  rewrite Z.sub_0_r. replace (n + 1 - 1) with n by lia. do 3 f_equal.
  unfold BitVector.set, BitVector.ensureSize, BitVector.quickSet, BitVector.maxInlineBits.
  cbn [BitVector.numBits BitVector.bits snd].
  destruct (Z.ltb_spec (Z.max 63 n) (n + 1)); cbn [BitVector.numBits BitVector.bits];
    rewrite setbit_ones by lia; f_equal; lia.
Qed.

Lemma dense_run_nat (m : nat) :
  (1 ≤ m)%nat → Z.of_nat m ≤ 178956970 →
  addAll P (seqZ 0 (Z.of_nat m)) emptySet = denseState (Z.of_nat m).
Proof.
  induction m as [|m IH]; intros Hm Hle; [lia|].
  destruct m as [|m]; [reflexivity|].
  rewrite seqZ_S, addAll_snoc, IH by lia.
  rewrite Z.add_0_l, add_dense by lia. cbn [snd]. f_equal. lia.
Qed.

Lemma dense_run n :
  1 ≤ n ≤ 178956970 → addAll P (seqZ 0 n) emptySet = denseState n.
Proof.
  intros Hn. rewrite <- (Z2Nat.id n) by lia. apply dense_run_nat; lia.
Qed.

Lemma add_dense_overflow n :
  n = 178956970 →
  add P (denseState n) n
  = (mkAddResult true,
     mkSet (U_hashSet (hashed P (BitVector.mk (Z.ones n)
                                   (Z.max BitVector.maxInlineBits n)) n 0 (n - 1) n))
       UnsignedMax 0 n).
Proof.
  intros Hn. unfold denseState.
  rewrite (add_toHash P _ n 0 (n - 1) (bitmapOK_dense n ltac:(lia))
             (length_dense n ltac:(lia)) n).
  - by rewrite (Z.min_l 0 n), (Z.max_r (n - 1) n) by lia.
  - apply validValue_range; lia.
  - lia.
  - rewrite (Z.min_l 0 n), (Z.max_r (n - 1) n) by lia. subst n.
    vm_compute. reflexivity.
Qed.

End DenseRun.

(** C4 (transition policy), at the input where the code and the claim part.
    The comparison that decides to leave bit vector mode is computed in
    [unsigned] arithmetic.  After inserting 0, 1, ..., 178956969 the set is in
    bit vector mode with 178956970 members; inserting 178956970 then switches
    to the hash set, although over the integers twice the estimated hash set
    size, 4294967304, is not below the bit vector estimate, 22369621. *)
Theorem estimate_overflow P :
  let s := addAll P (seqZ 0 178956970) emptySet in
  let v := 178956970 in
  reachable P s ∧ validValue v
  ∧ isBitVector s = true ∧ size s = 178956970
  ∧ m_min s = 0 ∧ m_max s = 178956969
  ∧ ¬ (2 * (Z.max 8 (size s + 1) * 3 * sizeofIndexType)
       < (Z.max (m_max s) v - Z.min (m_min s) v) / 8)
  ∧ isBitVector (snd (add P s v)) = false.
Proof.
  intros s v.
  assert (Hr : reachable P s).
  { apply addAll_reachable; [constructor|]. apply Forall_seqZ.
    intros i Hi. apply validValue_range. lia. }
  split; [exact Hr|]. split; [apply validValue_range; unfold v; lia|].
  unfold s, v in *. clear Hr s v. rewrite dense_run by lia.
  rewrite add_dense_overflow by reflexivity.
  unfold denseState, size, isBitVector. cbn [m_size m_min m_max snd].
  change (178956970 =? UnsignedMax) with false. cbn [negb].
  repeat split; try reflexivity.
  unfold sizeofIndexType. Z.div_mod_to_equations. lia.
Qed.

(** ** The theorems at concrete inputs *)

Ltac valid := apply validValue_range; lia.
Ltac all_valid := repeat (apply Forall_cons; split; [valid|]); constructor.
Ltac reached := apply addAll_reachable; [apply reachable_empty|all_valid].

(** Scenario 1 of the spec: 4000, 4002, 4003. *)
Lemma contains_after_adds_witness :
  Forall validValue [4000; 4002; 4003] ∧ validValue 4001
  ∧ (contains (addAll HashSet.doubling [4000; 4002; 4003] emptySet) 4001 = true
     ↔ 4001 ∈ [4000; 4002; 4003]).
Proof.
  assert (H1 : Forall validValue [4000; 4002; 4003]) by all_valid.
  assert (H2 : validValue 4001) by valid.
  split; [exact H1|]. split; [exact H2|].
  exact (contains_after_adds HashSet.doubling [4000; 4002; 4003] 4001 H1 H2).
Defined.

Lemma size_after_adds_witness :
  Forall validValue [4000; 4002; 4003; 4002]
  ∧ size (addAll HashSet.doubling [4000; 4002; 4003; 4002] emptySet)
    = Z.of_nat (length (remove_dups [4000; 4002; 4003; 4002])).
Proof. split; [all_valid|]. apply size_after_adds. all_valid. Defined.

(** Scenario 2 of the spec: 0, then 1000000, which leaves bit vector mode. *)
Lemma transition_keeps_members_witness :
  let s := addAll HashSet.doubling [0] emptySet in
  reachable HashSet.doubling s ∧ validValue 1000000
  ∧ isBitVector (snd (add HashSet.doubling s 1000000)) ≠ isBitVector s
  ∧ members (snd (add HashSet.doubling s 1000000)) = {[1000000]} ∪ members s
  ∧ ∀ w, validValue w →
      contains (snd (add HashSet.doubling s 1000000)) w
      = contains s w || bool_decide (w = 1000000).
Proof.
  intros s. split; [reached|]. split; [valid|].
  split; [vm_compute; discriminate|].
  apply transition_keeps_members; [reached|valid|vm_compute; discriminate].
Defined.

(** The way back: 0 and 2000 put the set in hash set mode; with the doubling
    table, the 31st further small value brings the bit vector back, and all
    33 values are still members. *)
Example transition_back :
  let vs := [0; 2000] ++ seqZ 1 30 in
  isBitVector (addAll HashSet.doubling vs emptySet) = false
  ∧ isBitVector (addAll HashSet.doubling (vs ++ [31]) emptySet) = true
  ∧ forallb (contains (addAll HashSet.doubling (vs ++ [31]) emptySet)) (vs ++ [31])
    = true
  ∧ size (addAll HashSet.doubling (vs ++ [31]) emptySet) = 33
  ∧ validate (addAll HashSet.doubling (vs ++ [31]) emptySet) = true.
Proof. vm_compute. done. Qed.

(** Scenario 4 of the spec: 50, then 10. *)
Lemma add_below_min_witness :
  let P := HashSet.doubling in
  let s := addAll P [50] emptySet in
  let s' := snd (add P s 10) in
  (reachable P s ∧ isBitVector s = true ∧ size s ≠ 0 ∧ validValue 10 ∧ 10 < m_min s
   ∧ hashSetIsCheaper (wrapUnsigned (m_size s + 1))
       (Z.min (m_min s) 10) (Z.max (m_max s) 10) = false)
  ∧ (isBitVector s' = true ∧ m_min s' = 10 ∧ m_max s' = m_max s
     ∧ m_max s - 10 < BitVector.numBits (bitVector s')
     ∧ (∀ p, BitVector.get (bitVector s) p = true →
             BitVector.get (bitVector s') (p + (m_min s - 10)) = true)
     ∧ BitVector.get (bitVector s') 0 = true
     ∧ (∀ w, validValue w → contains s w = true → contains s' w = true)
     ∧ contains s' 10 = true)
  ∧ let e := addAll P [50; 10] emptySet in
    contains e 50 = true ∧ contains e 10 = true ∧ size e = 2 ∧ m_min e = 10.
Proof.
  intros P s s'.
  assert (H1 : reachable P s) by reached.
  assert (H2 : isBitVector s = true) by reflexivity.
  assert (H3 : size s ≠ 0) by (vm_compute; discriminate).
  assert (H4 : validValue 10) by valid.
  assert (H5 : 10 < m_min s) by (vm_compute; reflexivity).
  assert (H6 : hashSetIsCheaper (wrapUnsigned (m_size s + 1))
                 (Z.min (m_min s) 10) (Z.max (m_max s) 10) = false)
    by (vm_compute; reflexivity).
  split; [done|]. exact (add_below_min P s 10 H1 H2 H3 H4 H5 H6).
Defined.

Lemma validate_reachable_witness :
  let P := HashSet.doubling in
  let s := addAll P [0; 1000000] emptySet in
  reachable P s
  ∧ validate s = true
  ∧ (size s ≠ 0 →
     m_min s ∈ members s ∧ m_max s ∈ members s
     ∧ ∀ x, x ∈ members s → m_min s ≤ x ≤ m_max s)
  ∧ (isBitVector s = true →
     m_size s = Z.of_nat (length (BitVector.setBits (bitVector s)))).
Proof. intros P s. split; [reached|]. apply (validate_reachable P). reached. Defined.

Lemma contains_by_mode_witness :
  let P := HashSet.doubling in
  let s := addAll P [4000; 4002; 4003] emptySet in
  reachable P s ∧ validValue 4002
  ∧ contains s 4002 =
    if isBitVector s then
      if 4002 <? m_min s then false
      else Z.testbit (BitVector.bits (bitVector s)) (4002 - m_min s)
    else HashSet.contains (hashSet s) 4002.
Proof.
  intros P s. split; [reached|]. split; [valid|].
  apply (contains_by_mode P); [reached|valid].
Defined.

Lemma add_twice_witness :
  let P := HashSet.doubling in
  let s := addAll P [4000] emptySet in
  (reachable P s ∧ validValue 4002 ∧ contains s 4002 = false)
  ∧ let r1 := add P s 4002 in
    let r2 := add P (snd r1) 4002 in
    isNewEntry (fst r1) = true ∧ isNewEntry (fst r2) = false
    ∧ size (snd r2) = size (snd r1).
Proof.
  intros P s. split; [split; [reached|split; [valid|reflexivity]]|].
  apply (add_twice P); [reached|valid|reflexivity].
Defined.

Lemma moveConstruct_spec_witness :
  let P := HashSet.doubling in
  let other := addAll P [5] emptySet in
  let this := fst (moveConstruct other) in
  let other' := snd (moveConstruct other) in
  reachable P other
  ∧ (this = other ∧ isBitVector this = isBitVector other
     ∧ members this = members other ∧ size this = size other)
  ∧ (m_size other' = m_size other ∧ m_min other' = m_min other
     ∧ m_max other' = m_max other)
  ∧ (members other' = ∅ ∧ ∀ w, contains other' w = false)
  ∧ size other' = if isBitVector other then m_size other else 0.
Proof.
  intros P other this other'. split; [reached|].
  apply (moveConstruct_spec P). reached.
Defined.

Lemma min_bit_set_witness :
  let P := HashSet.doubling in
  let s := addAll P [50; 10] emptySet in
  (reachable P s ∧ isBitVector s = true ∧ size s ≠ 0)
  ∧ BitVector.get (bitVector s) 0 = true ∧ contains s (m_min s) = true.
Proof.
  intros P s.
  assert (H1 : reachable P s) by reached.
  assert (H2 : isBitVector s = true) by reflexivity.
  assert (H3 : size s ≠ 0) by (vm_compute; discriminate).
  split; [done|]. exact (min_bit_set P s H1 H2 H3).
Defined.

(** * Further properties of the container *)

(** ** One call of [add] *)

(** X1.  On a reachable state, [add] reports a new entry exactly when the
    value was not contained before; afterwards the value is contained, the
    answer of [contains] for every other value is unchanged, and [size()]
    has grown by one exactly when the entry was new. *)
Theorem add_contract P s (v : Z) :
  reachable P s → validValue v →
  let r := add P s v in
  isNewEntry (fst r) = negb (contains s v)
  ∧ contains (snd r) v = true
  ∧ (∀ w, validValue w → w ≠ v → contains (snd r) w = contains s w)
  ∧ size (snd r) = size s + Z.b2z (isNewEntry (fst r)).
Proof.
  intros Hs%reachable_Inv Hv r. unfold r.
  destruct (add_spec P s v Hs Hv) as (HI & Hm & Hnew).
  rewrite Hnew, !size_spec, Hm by done.
  rewrite (contains_spec _ v Hs (proj1 Hv)), (contains_spec _ v HI (proj1 Hv)), Hm.
  split; [|split; [|split]].
  - by destruct (decide (v ∈ members s));
      rewrite ?(bool_decide_eq_true_2 (v ∈ _)), ?(bool_decide_eq_false_2 (v ∈ _)),
        ?(bool_decide_eq_true_2 (v ∉ _)), ?(bool_decide_eq_false_2 (v ∉ _)) by tauto.
  - apply bool_decide_eq_true. set_solver.
  - intros w Hw Hne.
    rewrite (contains_spec _ w Hs (proj1 Hw)), (contains_spec _ w HI (proj1 Hw)), Hm.
    apply bool_decide_ext. set_solver.
  - destruct (decide (v ∈ members s)) as [Hin|Hout].
    + rewrite (bool_decide_eq_false_2 (v ∉ _)) by tauto.
      rewrite size_insert_old by done. simpl. lia.
    + rewrite (bool_decide_eq_true_2 (v ∉ _)) by done.
      rewrite size_insert_new by done. simpl. lia.
Qed.

(** X2.  Inserting a value that is already a member changes nothing at all:
    the state after the call is the state before it, whatever the mode, and
    the call reports that the entry is not new. *)
Theorem add_present_unchanged P s (v : Z) :
  reachable P s → validValue v → contains s v = true →
  add P s v = (mkAddResult false, s).
Proof.
  intros Hs%reachable_Inv Hv Hc.
  rewrite (contains_spec _ v Hs (proj1 Hv)) in Hc. apply bool_decide_eq_true in Hc.
  destruct Hs as [|bv mn mx OK|hs mn mx OK].
  - rewrite members_emptySet in Hc. set_solver.
  - pose proof (members_s_range bv _ mn mx OK eq_refl v Hc) as Hin.
    apply (members_s_spec bv _ mn mx OK eq_refl) in Hc as [_ Hb].
    rewrite (add_inrange P bv _ mn mx OK eq_refl v Hin), Hb. cbn [negb Z.b2z].
    rewrite Z.add_0_r. do 3 f_equal. destruct bv as [b n]. cbn [BitVector.bits] in *.
    cbn [BitVector.numBits]. f_equal. apply Z.bits_inj'. intros i Hi.
    rewrite Z.setbit_eqb by lia.
    destruct (Z.eqb_spec (v - mn) i) as [<-|]; [by rewrite Hb|done].
  - rewrite members_hash in Hc by done. by apply add_hash_old.
Qed.

(** X3.  The sentinel value of [m_size] always tells which member of the
    union is live: in every reachable state [isBitVector()] holds exactly when
    the union holds the bit vector, and then the counter is at most
    [2^32 - 2], so it never collides with the value that marks hash set
    mode. *)
Theorem mode_matches_union P s :
  reachable P s →
  (isBitVector s = true ↔ ∃ bv, m_inline s = U_bitVector bv)
  ∧ (isBitVector s = false ↔ ∃ hs, m_inline s = U_hashSet hs)
  ∧ (isBitVector s = true → 0 ≤ m_size s ≤ UnsignedMax - 1).
Proof.
  intros Hs%reachable_Inv. rewrite (Inv_mode _ Hs), UnsignedMax_eq.
  destruct Hs as [|bv mn mx OK|hs mn mx OK]; cbn [m_inline m_size emptySet].
  - unfold emptySet. cbn [m_inline m_size]. split; [split; eauto|].
    split; [split; [done|by intros [? ?]]|lia].
  - pose proof (bitmap_size_range bv _ mn mx OK eq_refl).
    split; [split; eauto|]. split; [split; [done|by intros [? ?]]|lia].
  - split; [split; [done|by intros [? ?]]|]. split; [split; eauto|done].
Qed.

(** ** Upward extension *)

(** X4.  In bit vector mode, when a value above [m_max] is inserted and the
    cost comparison decides against the hash set, the bit vector grows in
    place: every bit keeps its position, the bit at [value - m_min] is set,
    [m_min] is unchanged, [m_max] becomes the value, the vector has room for
    the new range, and the members are the old ones and the value. *)
Theorem add_above_max P s (v : Z) :
  reachable P s → isBitVector s = true → size s ≠ 0 →
  validValue v → m_max s < v →
  hashSetIsCheaper (wrapUnsigned (m_size s + 1))
    (Z.min (m_min s) v) (Z.max (m_max s) v) = false →
  let s' := snd (add P s v) in
  isBitVector s' = true ∧ m_min s' = m_min s ∧ m_max s' = v
  ∧ v - m_min s < BitVector.numBits (bitVector s')
  ∧ (∀ p, BitVector.get (bitVector s) p = true →
          BitVector.get (bitVector s') p = true)
  ∧ BitVector.get (bitVector s') (v - m_min s) = true
  ∧ size s' = size s + 1
  ∧ ∀ w, validValue w → contains s' w = contains s w || bool_decide (w = v).
Proof.
  intros Hs Hb Hsz Hv Hgt Hc s'.
  pose proof (reachable_Inv _ _ Hs) as HI.
  pose proof (add_Inv P s v HI Hv) as HI'.
  pose proof (add_members P s v HI Hv) as Hm.
  assert (Hcont : ∀ w, validValue w →
                    contains s' w = contains s w || bool_decide (w = v)).
  { intros w [Hw _]. unfold s'.
    rewrite (contains_spec _ w HI' Hw), (contains_spec _ w HI Hw), Hm.
    apply eq_true_iff_eq. rewrite orb_true_iff, !bool_decide_eq_true. set_solver. }
  assert (Hsize : size s' = size s + 1).
  { unfold s'. rewrite !size_spec, Hm by done.
    rewrite size_insert_new; [lia|].
    destruct HI as [|bv mn mx OK|hs mn mx OK]; [done| |].
    - intros Hin%(members_s_range bv _ mn mx OK eq_refl). cbn [m_max] in Hgt. lia.
    - unfold isBitVector in Hb. cbn [m_size] in Hb. by rewrite Z.eqb_refl in Hb. }
  clear HI' Hm. destruct HI as [|bv mn mx OK|hs mn mx OK].
  - done.
  - cbn [m_size m_min m_max bitVector m_inline] in *.
    pose proof (bitmap_bounds _ _ _ OK) as Hbd.
    destruct (size1_out bv _ mn mx OK eq_refl v Hv ltac:(lia)) as (Hw & _ & Hne).
    rewrite Hw, (Z.min_l mn v), (Z.max_r mx v) in Hc by lia.
    unfold s' in *. rewrite (add_up P bv _ mn mx OK eq_refl v Hv Hgt Hc) in *.
    cbn [snd m_min m_max bitVector m_inline] in *.
    pose proof (numBits_set bv (v - mn)) as Hroom.
    split; [apply negb_true_iff, Z.eqb_neq, Hne|]. do 3 (split; [done|]).
    split; [|split; [|done]].
    + intros p Hp. unfold BitVector.get, BitVector.quickGet in *.
      destruct (BitVector.numBits bv <=? p); [done|].
      pose proof (testbit_neg_false _ _ Hp). pose proof (bm_within _ _ _ OK p Hp).
      destruct (Z.leb_spec (BitVector.numBits (snd (BitVector.set bv (v - mn)))) p);
        [lia|].
      rewrite bits_set, Z.setbit_eqb by lia. rewrite Hp. apply orb_true_r.
    + unfold BitVector.get, BitVector.quickGet.
      destruct (Z.leb_spec (BitVector.numBits (snd (BitVector.set bv (v - mn))))
                  (v - mn)); [lia|].
      rewrite bits_set, Z.setbit_eqb by lia. by rewrite Z.eqb_refl.
  - unfold isBitVector in Hb. cbn [m_size] in Hb. by rewrite Z.eqb_refl in Hb.
Qed.

(** ** Iteration *)

Lemma StronglySorted_seqZ_nat (k : nat) (m : Z) :
  StronglySorted Z.lt (seqZ m (Z.of_nat k)).
Proof.
  revert m. induction k as [|k IH]; intros m.
  - rewrite seqZ_nil by lia. constructor.
  - rewrite seqZ_cons by lia. replace (Z.pred (Z.of_nat (S k))) with (Z.of_nat k) by lia.
    constructor; [apply IH|]. apply Forall_forall. intros x Hx%elem_of_seqZ. lia.
Qed.

Lemma StronglySorted_setBits bv : StronglySorted Z.lt (BitVector.setBits bv).
Proof.
  unfold BitVector.setBits.
  assert (Hs : StronglySorted Z.lt (seqZ 0 (BitVector.numBits bv))).
  { destruct (Z.le_gt_cases 0 (BitVector.numBits bv)) as [Hn|Hn].
    - rewrite <- (Z2Nat.id _ Hn). apply StronglySorted_seqZ_nat.
    - rewrite seqZ_nil by lia. constructor. }
  induction Hs as [|x l Hl IH Hx]; [constructor|].
  rewrite filter_cons. destruct (decide _); [|done].
  constructor; [done|]. apply Forall_forall. intros y [_ Hy]%list_elem_of_filter.
  by eapply Forall_forall in Hx.
Qed.

Lemma collect_rest (bitVectorAlt : bool) (shift : Z) (rest : list Z) :
  let mk r := mkIterator (if bitVectorAlt then It_bitVector r else It_hashSet r) shift in
  collect (S (length rest)) (mk rest) (mk [])
  = Some ((λ x, if bitVectorAlt then wrapIndex (x + shift) else x) <$> rest).
Proof.
  intros mk. induction rest as [|x rest IH].
  - cbn [collect length]. unfold iterator_ne, mk. cbn [m_underlying m_shift].
    rewrite Z.eqb_refl. by destruct bitVectorAlt.
  - cbn [length]. change (collect (S (S (length rest))) (mk (x :: rest)) (mk []))
      with (if iterator_ne (mk (x :: rest)) (mk [])
            then cons (dereference (mk (x :: rest)))
                   <$> collect (S (length rest)) (increment (mk (x :: rest))) (mk [])
            else Some []).
    replace (iterator_ne (mk (x :: rest)) (mk [])) with true
      by (unfold iterator_ne, mk; by destruct bitVectorAlt).
    replace (increment (mk (x :: rest))) with (mk rest)
      by (unfold increment, mk; by destruct bitVectorAlt).
    rewrite IH. unfold dereference, mk. by destruct bitVectorAlt.
Qed.

(** X5.  Walking a reachable set from [begin()] to [end()] stops after
    [size()] increments and yields every member exactly once: the values
    seen have no duplicates, there are [size()] of them, and a value is seen
    exactly when [contains] answers true for it. *)
Theorem iteration_yields_members P s :
  reachable P s →
  collect (S (Z.to_nat (size s))) (begin s) (end_ s) = Some (toList s)
  ∧ NoDup (toList s)
  ∧ Z.of_nat (length (toList s)) = size s
  ∧ ∀ w, validValue w → w ∈ toList s ↔ contains s w = true.
Proof.
  intros Hs%reachable_Inv.
  assert (Hnd : NoDup (toList s)).
  { destruct Hs as [|bv mn mx OK|hs mn mx OK].
    - constructor.
    - by eapply NoDup_toList_bitmap, bitmap_size_ne.
    - unfold toList, isBitVector. cbn [m_size hashSet m_inline].
      rewrite Z.eqb_refl. cbn [negb]. unfold HashSet.toList. apply NoDup_elements. }
  assert (Hlen : Z.of_nat (length (toList s)) = size s).
  { rewrite (size_spec _ Hs). unfold members. by rewrite size_list_to_set. }
  split; [|split; [done|split; [done|]]].
  - rewrite <- Hlen, Nat2Z.id. unfold begin, end_, toList.
    destruct (isBitVector s).
    + rewrite length_fmap. apply (collect_rest true).
    + rewrite (collect_rest false). by rewrite list_fmap_id.
  - intros w [Hw _]. rewrite (contains_spec _ w Hs Hw), bool_decide_eq_true.
    unfold members. by rewrite elem_of_list_to_set.
Qed.

(** X6.  [begin()] equals [end()] exactly when the set is empty. *)
Theorem begin_is_end_iff_empty P s :
  reachable P s → iterator_eq (begin s) (end_ s) = (size s =? 0).
Proof.
  intros Hs%reachable_Inv. destruct Hs as [|bv mn mx OK|hs mn mx OK].
  - done.
  - pose proof (setBits_count _ _ _ OK) as Hc.
    unfold begin, end_, size. rewrite (isBitVector_bitmap _ _ _ OK).
    unfold iterator_eq. cbn [m_underlying m_shift m_size bitVector m_inline underlying_eq].
    rewrite (proj2 (Z.eqb_neq _ 0)) by lia.
    destruct (BitVector.setBits bv); [cbn [length] in Hc; lia|done].
  - pose proof (keyCount_range _ _ _ OK) as Hc.
    unfold begin, end_, size, isBitVector. cbn [m_size]. rewrite Z.eqb_refl.
    unfold iterator_eq. cbn [negb m_underlying m_shift hashSet m_inline underlying_eq].
    rewrite (proj2 (Z.eqb_neq _ 0)) by lia.
    unfold HashSet.keyCount, HashSet.toList in *.
    change (base.size (HashSet.keys hs)) with (length (elements (HashSet.keys hs))) in Hc.
    destruct (elements (HashSet.keys hs)); [cbn [length] in Hc; lia|done].
Qed.

(** X7.  In bit vector mode the iteration is strictly ascending; on a
    non-empty set it starts with [m_min] and ends with [m_max]. *)
Theorem iteration_ascending P s :
  reachable P s → isBitVector s = true →
  StronglySorted Z.lt (toList s)
  ∧ (size s ≠ 0 → head (toList s) = Some (m_min s) ∧ last (toList s) = Some (m_max s)).
Proof.
  intros Hs%reachable_Inv Hb. destruct Hs as [|bv mn mx OK|hs mn mx OK].
  - split; [constructor|done].
  - pose proof (bitmap_bounds _ _ _ OK) as Hbd.
    assert (Hl : toList (mkSet (U_bitVector bv)
                   (Z.of_nat (length (BitVector.setBits bv))) mn mx)
                 = (λ it, it + mn) <$> BitVector.setBits bv).
    { unfold toList. rewrite Hb. cbn [bitVector m_inline m_min].
      apply list_fmap_ext. intros _ i Hi%list_elem_of_lookup_2.
      pose proof (setBits_range _ _ _ OK i Hi). by rewrite wrapIndex_small by lia. }
    assert (Hsorted : StronglySorted Z.lt ((λ it, it + mn) <$> BitVector.setBits bv)).
    { apply (StronglySorted_fmap _ Z.lt); [intros; lia|apply StronglySorted_setBits]. }
    rewrite Hl. split; [done|]. intros _. cbn [m_min m_max].
    assert (H0 : mn ∈ (λ it, it + mn) <$> BitVector.setBits bv).
    { apply list_elem_of_fmap. exists 0. split; [lia|].
      apply (elem_of_setBits_ok _ _ _ OK), (bm_first _ _ _ OK). }
    assert (H1 : mx ∈ (λ it, it + mn) <$> BitVector.setBits bv).
    { apply list_elem_of_fmap. exists (mx - mn). split; [lia|].
      apply (elem_of_setBits_ok _ _ _ OK), (bm_last _ _ _ OK). }
    assert (Hr : ∀ y, y ∈ (λ it, it + mn) <$> BitVector.setBits bv → mn ≤ y ≤ mx).
    { intros y (i & -> & Hi%(setBits_range _ _ _ OK))%list_elem_of_fmap. lia. }
    revert Hsorted H0 H1 Hr. generalize ((λ it, it + mn) <$> BitVector.setBits bv).
    intros l Hsorted H0 H1 Hr. split.
    + destruct Hsorted as [|x l Hl' Hx]; [by apply elem_of_nil in H0|].
      cbn [head]. f_equal. apply elem_of_cons in H0 as [->|H0]; [done|].
      eapply Forall_forall in Hx; [|exact H0]. specialize (Hr x ltac:(left)). lia.
    + destruct (list_elem_of_split _ _ H1) as (l1 & l2 & ->).
      destruct l2 as [|y l2]; [by rewrite last_snoc|].
      apply StronglySorted_app_1_r in Hsorted.
      inversion Hsorted as [|? ? _ Hx]; subst.
      eapply Forall_forall in Hx; [|left].
      specialize (Hr y ltac:(apply elem_of_app; right; right; left)). lia.
  - unfold isBitVector in Hb. cbn [m_size] in Hb. by rewrite Z.eqb_refl in Hb.
Qed.

(** ** When the hash set is used *)

Lemma hashSetIsCheaper_range (size1 newMin newMax : Z) :
  0 ≤ newMin ≤ newMax → newMax ≤ 4294967295 →
  hashSetIsCheaper size1 newMin newMax = true →
  8 ≤ newMax - newMin
  ∧ (0 ≤ size1 ≤ 178956970 → 1544 ≤ newMax - newMin).
Proof.
  intros Hm Hmax Hc. split.
  - unfold hashSetIsCheaper in Hc. cbv zeta in Hc. apply Z.ltb_lt in Hc.
    rewrite (wrapIndex_small (newMax - newMin)) in Hc by lia.
    assert (0 ≤ (newMax - newMin) / 8 ≤ 536870911) by (Z.div_mod_to_equations; lia).
    rewrite (wrapUnsigned_small ((newMax - newMin) / 8)) in Hc by lia.
    match type of Hc with wrapUnsigned ?x < _ =>
      assert (0 ≤ wrapUnsigned x) by (unfold wrapUnsigned; apply Z.mod_pos_bound; lia)
    end.
    Z.div_mod_to_equations. lia.
  - intros Hsz. apply hashSetIsCheaper_exact in Hc.
    + unfold sizeofIndexType in Hc. Z.div_mod_to_equations. lia.
    + done.
    + change IndexMax with 4294967295. lia.
    + rewrite UnsignedMax_eq. unfold sizeofIndexType. lia.
Qed.

(** One insertion keeps: in hash set mode there are at least two members,
    the bounds are at least 8 apart, and at least 1544 apart unless the set
    has more than 178956970 members. *)
Lemma wide_step P s (v : Z) :
  reachable P s → validValue v →
  (isBitVector s = false →
   2 ≤ size s ∧ 8 ≤ m_max s - m_min s
   ∧ (size s ≤ 178956970 → 1544 ≤ m_max s - m_min s)) →
  let s' := snd (add P s v) in
  isBitVector s' = false →
  2 ≤ size s' ∧ 8 ≤ m_max s' - m_min s'
  ∧ (size s' ≤ 178956970 → 1544 ≤ m_max s' - m_min s').
Proof.
  intros Hs Hv IH s' Hmode. unfold s' in *. clear s'.
  pose proof (add_mode P s v Hs Hv) as Hm. rewrite Hmode in Hm.
  pose proof (proj1 (validValue_range v) Hv) as Hr.
  destruct (reachable_Inv _ _ Hs) as [|bv mn mx OK|hs mn mx OK].
  - done.
  - rewrite (isBitVector_bitmap _ _ _ OK) in Hm. cbn [m_size m_min m_max] in Hm.
    pose proof (bitmap_size_range bv _ mn mx OK eq_refl) as Hsz.
    pose proof (bitmap_bounds _ _ _ OK) as Hbd.
    symmetry in Hm. apply negb_false_iff in Hm.
    apply andb_true_iff in Hm as [Hm Hc]. apply andb_true_iff in Hm as [_ Hout].
    apply negb_true_iff, andb_false_iff in Hout.
    assert (Hout' : ¬ (mn ≤ v ≤ mx)).
    { destruct Hout as [?%Z.leb_gt|?%Z.leb_gt]; lia. }
    rewrite (add_toHash P bv _ mn mx OK eq_refl v Hv Hout' Hc). cbn [snd].
    unfold size, isBitVector. cbn [m_size m_min m_max hashSet m_inline].
    rewrite Z.eqb_refl. cbn [negb]. unfold HashSet.keyCount.
    rewrite (keys_hashed P bv _ mn mx OK eq_refl).
    rewrite (size_add_new bv _ mn mx OK eq_refl)
      by by apply (out_not_member bv _ mn mx OK eq_refl).
    pose proof (λ H1 H2, hashSetIsCheaper_range _ _ _ H1 H2 Hc) as Hrange.
    destruct Hrange as [H8 Hw]; [lia|lia|].
    split; [lia|]. split; [done|]. intros Hle. apply Hw. lia.
  - unfold isBitVector in IH, Hm. cbn [m_size] in IH, Hm. rewrite Z.eqb_refl in IH, Hm.
    cbn [negb m_min m_max hashSet m_inline] in IH, Hm.
    destruct (IH eq_refl) as (I2 & I8 & Iw). clear IH.
    unfold size, isBitVector in I2, Iw. cbn [m_size hashSet m_inline] in I2, Iw.
    rewrite Z.eqb_refl in I2, Iw. cbn [negb] in I2, Iw.
    pose proof (hash_bounds _ _ _ OK) as Hbd.
    destruct (decide (v ∈ HashSet.keys hs)) as [Hin|Hnew].
    { rewrite (add_hash_old P hs mn mx v Hin). cbn [snd].
      unfold size, isBitVector. cbn [m_size m_min m_max hashSet m_inline].
      by rewrite Z.eqb_refl. }
    symmetry in Hm. apply andb_false_iff in Hm as [Hm|Hc].
    { apply negb_false_iff, bool_decide_eq_true in Hm. done. }
    rewrite add_hash_dispatch. cbv zeta.
    rewrite fst_add, (bool_decide_eq_true_2 _ Hnew), Hc. cbn [negb snd].
    unfold size, isBitVector. cbn [m_size m_min m_max hashSet m_inline].
    rewrite Z.eqb_refl. cbn [negb]. unfold HashSet.keyCount in *.
    rewrite keys_add, size_insert_new by done. lia.
Qed.



(** ** The two transitions, composed *)

(** Two bit vectors with the same bits, both large enough for them, yield
    the same positions. *)
Lemma setBits_same_bits bv bv' :
  BitVector.bits bv = BitVector.bits bv' →
  (∀ i, Z.testbit (BitVector.bits bv) i = true →
        i < BitVector.numBits bv ∧ i < BitVector.numBits bv') →
  BitVector.setBits bv = BitVector.setBits bv'.
Proof.
  intros Hbits Hroom.
  apply (StronglySorted_unique_strong Z.lt);
    [intros; lia|apply StronglySorted_setBits|apply StronglySorted_setBits|].
  apply NoDup_Permutation; [apply NoDup_setBits|apply NoDup_setBits|].
  intros i. rewrite !elem_of_setBits, <- Hbits. split.
  - intros [[H0 _] Hb]. destruct (Hroom i Hb). split; [lia|done].
  - intros [[H0 _] Hb]. destruct (Hroom i Hb). split; [lia|done].
Qed.

(** X10.  Converting a reachable non-empty bit vector state to the hash set
    keeps the members, the size and both bounds; converting the result back
    restores the bits, the counter, the bounds and the iteration order. *)
Theorem transition_round_trip P s :
  reachable P s → isBitVector s = true → size s ≠ 0 →
  let h := transitionToHashSet P s in
  let s' := transitionToBitVector h in
  (isBitVector h = false ∧ members h = members s ∧ size h = size s
   ∧ m_min h = m_min s ∧ m_max h = m_max s)
  ∧ (isBitVector s' = true ∧ toList s' = toList s ∧ m_size s' = m_size s
     ∧ BitVector.bits (bitVector s') = BitVector.bits (bitVector s)
     ∧ m_min s' = m_min s ∧ m_max s' = m_max s).
Proof.
  intros Hs%reachable_Inv Hb Hsz h s'.
  destruct Hs as [|bv mn mx OK|hs mn mx OK].
  - done.
  - set (sz := Z.of_nat (length (BitVector.setBits bv))) in *.
    pose proof (bitmap_bounds _ _ _ OK) as Hbd.
    pose proof (bitmap_size_ne bv sz mn mx OK eq_refl) as Hne.
    pose proof (keys_transitionToHashSet P bv sz mn mx OK eq_refl sz) as Hk.
    fold h in Hk. set (hs := hashSet h) in *.
    assert (Hh : h = mkSet (U_hashSet hs) UnsignedMax mn mx) by reflexivity.
    assert (OKh : hashOK hs mn mx).
    { split; rewrite Hk.
      - intros k Hk'%(members_s_range bv sz mn mx OK eq_refl).
        split; [apply validValue_range; lia|done].
      - apply (min_in_members bv sz mn mx OK eq_refl).
      - apply (max_in_members bv sz mn mx OK eq_refl). }
    assert (Hcount : HashSet.keyCount hs = sz).
    { unfold HashSet.keyCount. rewrite Hk. apply (size_members_s bv sz mn mx OK eq_refl). }
    assert (Hs' : s' = mkSet (U_bitVector (rebuilt hs mn mx)) sz mn mx).
    { unfold s'. rewrite Hh, (transitionToBitVector_eq _ _ _ OKh). by rewrite Hcount. }
    assert (Hbits : BitVector.bits (rebuilt hs mn mx) = BitVector.bits bv).
    { apply Z.bits_inj'. intros i Hi. apply eq_true_iff_eq.
      rewrite (testbit_rebuilt _ _ _ OKh), Hk.
      rewrite (members_s_spec bv sz mn mx OK eq_refl).
      replace (i + mn - mn) with i by lia. split; [tauto|]. intros Hbit.
      split; [done|]. split; [lia|done]. }
    split.
    + rewrite Hh. unfold size, isBitVector. cbn [m_size m_min m_max hashSet m_inline].
      rewrite Z.eqb_refl, (proj2 (Z.eqb_neq sz UnsignedMax)) by done. cbn [negb].
      rewrite members_hash by done. done.
    + rewrite Hs'. cbn [m_size m_min m_max bitVector m_inline].
      split; [apply negb_true_iff, Z.eqb_neq, Hne|]. split; [|done].
      unfold toList, isBitVector. cbn [m_size m_min bitVector m_inline].
      rewrite (proj2 (Z.eqb_neq sz UnsignedMax)) by done. cbn [negb].
      f_equal. apply setBits_same_bits; [done|]. rewrite Hbits. intros i Hi.
      pose proof (bm_within _ _ _ OK i Hi). pose proof (bm_room _ _ _ OK).
      pose proof (numBits_rebuilt _ _ _ OKh). lia.
  - unfold isBitVector in Hb. cbn [m_size] in Hb. by rewrite Z.eqb_refl in Hb.
Qed.

(** ** Bit positions stay inside the bit vector *)


(** ** Memory accounting *)

(** X12.  After an insertion of a new value that leaves the set in hash set
    mode, what [memoryUse()] reports beyond the size of the object is at most
    twice the bit vector estimate [(m_max - m_min) / 8] for the new bounds,
    as long as the byte count fits in an [unsigned]. *)
Theorem memoryUse_hashSet_bound P (sizeofSet : Z) (outOfLineMemoryUse : BitVector.t → Z)
    s (v : Z) :
  reachable P s → validValue v → isBitVector s = false →
  let s' := snd (add P s v) in
  isNewEntry (fst (add P s v)) = true → isBitVector s' = false →
  0 ≤ sizeofSet → 0 ≤ HashSet.capacity (hashSet s') →
  sizeofSet + HashSet.capacity (hashSet s') * sizeofIndexType ≤ UnsignedMax →
  memoryUse sizeofSet outOfLineMemoryUse s'
  ≤ sizeofSet + 2 * ((m_max s' - m_min s') / 8).
Proof.
  intros Hs Hv Hb s' Hnew Hb' H0 Hcap Hfit. unfold s' in *. clear s'.
  pose proof (add_mode P s v Hs Hv) as Hm. rewrite Hb', Hb in Hm.
  destruct (reachable_Inv _ _ Hs) as [|bv mn mx OK|hs mn mx OK].
  - done.
  - by rewrite (isBitVector_bitmap _ _ _ OK) in Hb.
  - cbn [m_min m_max hashSet m_inline] in Hm.
    pose proof (hash_bounds _ _ _ OK) as Hbd.
    pose proof (proj1 (validValue_range v) Hv) as Hr.
    destruct (decide (v ∈ HashSet.keys hs)) as [Hin|Hout].
    { rewrite (add_hash_old P hs mn mx v Hin) in Hnew. done. }
    symmetry in Hm. apply andb_false_iff in Hm as [Hm|Hc].
    { apply negb_false_iff, bool_decide_eq_true in Hm. done. }
    rewrite add_hash_dispatch in *. cbv zeta in *.
    rewrite fst_add, (bool_decide_eq_true_2 _ Hout), Hc in *.
    cbn [negb snd m_min m_max hashSet m_inline] in *.
    unfold memoryUse, isBitVector. cbn [m_size hashSet m_inline].
    rewrite Z.eqb_refl. cbn [negb]. rewrite UnsignedMax_eq in Hfit.
    unfold sizeofIndexType in *. rewrite wrapUnsigned_small by lia.
    apply not_true_iff_false in Hc.
    rewrite bitVectorIsCheaper_exact in Hc;
      [unfold sizeofIndexType in Hc; lia|lia|change IndexMax with 4294967295; lia|].
    rewrite UnsignedMax_eq. unfold sizeofIndexType. lia.
Qed.

(** ** A far outlier *)


(** ** The further properties at concrete inputs *)

Lemma add_contract_witness :
  let P := HashSet.doubling in
  let s := addAll P [4000; 4002] emptySet in
  let r := add P s 4003 in
  (reachable P s ∧ validValue 4003)
  ∧ isNewEntry (fst r) = negb (contains s 4003)
  ∧ contains (snd r) 4003 = true
  ∧ (∀ w, validValue w → w ≠ 4003 → contains (snd r) w = contains s w)
  ∧ size (snd r) = size s + Z.b2z (isNewEntry (fst r)).
Proof.
  intros P s r.
  assert (H1 : reachable P s) by reached.
  assert (H2 : validValue 4003) by valid.
  split; [done|]. exact (add_contract P s 4003 H1 H2).
Defined.

Lemma add_present_unchanged_witness :
  let P := HashSet.doubling in
  let s := addAll P [0; 1000000] emptySet in
  (reachable P s ∧ validValue 1000000 ∧ contains s 1000000 = true)
  ∧ add P s 1000000 = (mkAddResult false, s).
Proof.
  intros P s.
  assert (H1 : reachable P s) by reached.
  assert (H2 : validValue 1000000) by valid.
  assert (H3 : contains s 1000000 = true) by (vm_compute; reflexivity).
  split; [done|]. exact (add_present_unchanged P s 1000000 H1 H2 H3).
Defined.

Lemma mode_matches_union_witness :
  let P := HashSet.doubling in
  let s := addAll P [0; 1000000] emptySet in
  reachable P s
  ∧ (isBitVector s = true ↔ ∃ bv, m_inline s = U_bitVector bv)
  ∧ (isBitVector s = false ↔ ∃ hs, m_inline s = U_hashSet hs)
  ∧ (isBitVector s = true → 0 ≤ m_size s ≤ UnsignedMax - 1).
Proof.
  intros P s. assert (H1 : reachable P s) by reached.
  split; [done|]. exact (mode_matches_union P s H1).
Defined.

Lemma add_above_max_witness :
  let P := HashSet.doubling in
  let s := addAll P [10] emptySet in
  let s' := snd (add P s 50) in
  (reachable P s ∧ isBitVector s = true ∧ size s ≠ 0 ∧ validValue 50 ∧ m_max s < 50
   ∧ hashSetIsCheaper (wrapUnsigned (m_size s + 1))
       (Z.min (m_min s) 50) (Z.max (m_max s) 50) = false)
  ∧ isBitVector s' = true ∧ m_min s' = m_min s ∧ m_max s' = 50
  ∧ 50 - m_min s < BitVector.numBits (bitVector s')
  ∧ (∀ p, BitVector.get (bitVector s) p = true →
          BitVector.get (bitVector s') p = true)
  ∧ BitVector.get (bitVector s') (50 - m_min s) = true
  ∧ size s' = size s + 1
  ∧ ∀ w, validValue w → contains s' w = contains s w || bool_decide (w = 50).
Proof.
  intros P s s'.
  assert (H1 : reachable P s) by reached.
  assert (H2 : isBitVector s = true) by reflexivity.
  assert (H3 : size s ≠ 0) by (vm_compute; discriminate).
  assert (H4 : validValue 50) by valid.
  assert (H5 : m_max s < 50) by (vm_compute; reflexivity).
  assert (H6 : hashSetIsCheaper (wrapUnsigned (m_size s + 1))
                 (Z.min (m_min s) 50) (Z.max (m_max s) 50) = false)
    by (vm_compute; reflexivity).
  split; [done|]. exact (add_above_max P s 50 H1 H2 H3 H4 H5 H6).
Defined.

Lemma iteration_yields_members_witness :
  let P := HashSet.doubling in
  let s := addAll P [4003; 4000; 4002] emptySet in
  reachable P s
  ∧ collect (S (Z.to_nat (size s))) (begin s) (end_ s) = Some (toList s)
  ∧ NoDup (toList s)
  ∧ Z.of_nat (length (toList s)) = size s
  ∧ ∀ w, validValue w → w ∈ toList s ↔ contains s w = true.
Proof.
  intros P s. assert (H1 : reachable P s) by reached.
  split; [done|]. exact (iteration_yields_members P s H1).
Defined.

Lemma begin_is_end_iff_empty_witness :
  let P := HashSet.doubling in
  let s := addAll P [0; 1000000] emptySet in
  reachable P s ∧ iterator_eq (begin s) (end_ s) = (size s =? 0).
Proof.
  intros P s. assert (H1 : reachable P s) by reached.
  split; [done|]. exact (begin_is_end_iff_empty P s H1).
Defined.

Lemma iteration_ascending_witness :
  let P := HashSet.doubling in
  let s := addAll P [4003; 4000; 4002] emptySet in
  (reachable P s ∧ isBitVector s = true)
  ∧ StronglySorted Z.lt (toList s)
  ∧ (size s ≠ 0 → head (toList s) = Some (m_min s) ∧ last (toList s) = Some (m_max s)).
Proof.
  intros P s.
  assert (H1 : reachable P s) by reached.
  assert (H2 : isBitVector s = true) by reflexivity.
  split; [done|]. exact (iteration_ascending P s H1 H2).
Defined.



Lemma transition_round_trip_witness :
  let P := HashSet.doubling in
  let s := addAll P [50; 10; 12] emptySet in
  let h := transitionToHashSet P s in
  let s' := transitionToBitVector h in
  (reachable P s ∧ isBitVector s = true ∧ size s ≠ 0)
  ∧ (isBitVector h = false ∧ members h = members s ∧ size h = size s
     ∧ m_min h = m_min s ∧ m_max h = m_max s)
  ∧ (isBitVector s' = true ∧ toList s' = toList s ∧ m_size s' = m_size s
     ∧ BitVector.bits (bitVector s') = BitVector.bits (bitVector s)
     ∧ m_min s' = m_min s ∧ m_max s' = m_max s).
Proof.
  intros P s h s'.
  assert (H1 : reachable P s) by reached.
  assert (H2 : isBitVector s = true) by reflexivity.
  assert (H3 : size s ≠ 0) by (vm_compute; discriminate).
  split; [done|]. exact (transition_round_trip P s H1 H2 H3).
Defined.


Lemma memoryUse_hashSet_bound_witness :
  let P := HashSet.doubling in
  let s := addAll P [0; 1000000] emptySet in
  let s' := snd (add P s 5) in
  (reachable P s ∧ validValue 5 ∧ isBitVector s = false
   ∧ isNewEntry (fst (add P s 5)) = true ∧ isBitVector s' = false
   ∧ 0 ≤ 24 ∧ 0 ≤ HashSet.capacity (hashSet s')
   ∧ 24 + HashSet.capacity (hashSet s') * sizeofIndexType ≤ UnsignedMax)
  ∧ memoryUse 24 (λ _, 0) s' ≤ 24 + 2 * ((m_max s' - m_min s') / 8).
Proof.
  intros P s s'.
  assert (H1 : reachable P s) by reached.
  assert (H2 : validValue 5) by valid.
  assert (H3 : isBitVector s = false) by reflexivity.
  assert (H4 : isNewEntry (fst (add P s 5)) = true) by reflexivity.
  assert (H5 : isBitVector s' = false) by reflexivity.
  assert (H6 : 0 ≤ 24) by lia.
  assert (H7 : 0 ≤ HashSet.capacity (hashSet s')) by (vm_compute; discriminate).
  assert (H8 : 24 + HashSet.capacity (hashSet s') * sizeofIndexType ≤ UnsignedMax)
    by (vm_compute; discriminate).
  split; [done|].
  exact (memoryUse_hashSet_bound P 24 (λ _, 0) s 5 H1 H2 H3 H4 H5 H6 H7 H8).
Defined.

